(** * Avery job-lease controller: a shallow embedding of [avery/controller.py]

    The controller is a thin layer over one MongoDB collection.  The
    collection is modelled as a list of documents in natural (insertion)
    order, a document as a finite map from field names to BSON values, and
    every controller method as a computation in a state-and-exception monad
    over the collection.  Each call of [datetime.utcnow()] and the health
    of the connection during each driver call are explicit inputs.

    The [_id] key that the driver adds to an inserted document is left out:
    every read of the controller asks for [projection={'_id': False}] and no
    filter names it.  Integers are unbounded. *)

From Stdlib Require Import ZArith Lia.
From stdpp Require Import base option list gmap strings fin_maps.

Open Scope string_scope.
Open Scope list_scope.
Open Scope Z_scope.

(** ** BSON values *)

(** The values the controller stores in a document: Python [None], booleans,
    integers, strings, datetimes (in milliseconds, the resolution of a BSON
    date) and nested dictionaries (the [args] and [worker_exception]
    payloads). *)
Inductive value :=
| VNone
| VBool (b : bool)
| VInt (n : Z)
| VStr (s : string)
| VDate (ms : Z)
| VDict (kvs : fields)
with fields :=
| FNil
| FCons (k : string) (v : value) (rest : fields).

Fixpoint value_eq_dec (x y : value) {struct x} : {x = y} + {x ≠ y}
with fields_eq_dec (x y : fields) {struct x} : {x = y} + {x ≠ y}.
Proof.
  - decide equality;
      first [apply bool_dec | apply Z.eq_dec | apply String.string_dec
            | apply fields_eq_dec].
  - decide equality; first [apply String.string_dec | apply value_eq_dec].
Defined.

#[global] Instance value_eq_decision : EqDecision value := value_eq_dec.

(** Python truthiness, as used by [args or {}]. *)
Definition truthy (v : value) : bool :=
  match v with
  | VNone => false
  | VBool b => b
  | VInt n => negb (n =? 0)
  | VStr s => negb (String.eqb s "")
  | VDate _ => true
  | VDict FNil => false
  | VDict (FCons _ _ _) => true
  end.

(** [a or b] *)
Definition py_or (a b : value) : value := if truthy a then a else b.

(** ** Documents and the collection *)

Abbreviation doc := (gmap string value).
Abbreviation collection := (list (gmap string value)).

(** A field that is absent reads as null in an equality or membership
    filter. *)
Definition field (d : doc) (k : string) : value := default VNone (d !! k).

(** ** Filters: the three operators the controller uses *)

Inductive cond :=
| Eq (v : value)                (* {k: v} *)
| In (vs : list value)          (* {k: {'$in': vs}} *)
| LtDate (ms : Z).              (* {k: {'$lt': <datetime>}} *)

Abbreviation query := (list (string * cond)).

Definition holds (d : doc) (kc : string * cond) : bool :=
  match kc.2 with
  | Eq v => bool_decide (field d kc.1 = v)
  | In vs => bool_decide (field d kc.1 ∈ vs)
  | LtDate ms =>
      match d !! kc.1 with
      | Some (VDate h) => h <? ms
      | _ => false
      end
  end.

Definition matches (q : query) (d : doc) : bool := forallb (holds d) q.

(** ** Updates: [{'$inc': ..., '$set': ...}] *)

Record update := Update { u_inc : list (string * Z); u_set : gmap string value }.

(** [$inc] creates an absent field and fails on a non-numeric one. *)
Definition inc_field (ka : string * Z) (od : option doc) : option doc :=
  d ← od;
  match d !! ka.1 with
  | None => Some (<[ka.1 := VInt ka.2]> d)
  | Some (VInt n) => Some (<[ka.1 := VInt (n + ka.2)]> d)
  | Some _ => None
  end.

(** The server rejects an update whose [$inc] and [$set] name the same
    field. *)
Definition conflicting (u : update) : bool :=
  existsb (λ ka : string * Z, bool_decide (is_Some (u_set u !! ka.1))) (u_inc u).

Definition apply_update (u : update) (d : doc) : option doc :=
  if conflicting u then None
  else foldr inc_field (Some (u_set u ∪ d)) (u_inc u).

(** ** Exceptions and the monad *)

Inductive exn :=
| AutoReconnect        (* pymongo.errors *)
| DuplicateKeyError    (* pymongo.errors *)
| WriteError           (* pymongo.errors *)
| RetriableError
| ConcurrencyError
| AttributeError
| KeyError
| AssertionError.

Inductive outcome (A : Type) :=
| Ok (a : A)
| Raise (e : exn).
Arguments Ok {A} a.
Arguments Raise {A} e.

(** A computation runs against the collection and either returns or raises;
    the collection is threaded through both. *)
Definition M (A : Type) : Type := collection → outcome A * collection.

#[global] Instance M_ret : MRet M := λ A a c, (Ok a, c).

#[global] Instance M_bind : MBind M := λ A B k m c,
  match m c with
  | (Ok a, c') => k a c'
  | (Raise e, c') => (Raise e, c')
  end.

Definition raise {A} (e : exn) : M A := λ c, (Raise e, c).

(** [try: m  except e: h] *)
Definition try_except {A} (m : M A) (h : exn → option (M A)) : M A := λ c,
  match m c with
  | (Ok a, c') => (Ok a, c')
  | (Raise e, c') =>
      match h e with
      | Some k => k c'
      | None => (Raise e, c')
      end
  end.

Definition lift {A} (o : outcome A) : M A := λ c, (o, c).

(** ** The driver: [pymongo.collection.Collection] *)

(** What the server does with a request, were the connection sound. *)
Module Server.

(** The unique index on [job_id]. *)
Definition dup_key (d : doc) (c : collection) : bool :=
  existsb (λ d' : doc, bool_decide (field d' "job_id" = field d "job_id")) c.

Definition first_match (q : query) (c : collection) : option (nat * doc) :=
  list_find (λ d, matches q d = true) c.

Definition insert_one (d : doc) : M unit := λ c,
  if dup_key d c then (Raise DuplicateKeyError, c) else (Ok (), c ++ [d]).

Definition find_one (q : query) : M (option doc) := λ c,
  (Ok (snd <$> first_match q c), c).

(** [return_document=ReturnDocument.AFTER] *)
Definition find_one_and_update (q : query) (u : update) : M (option doc) := λ c,
  match first_match q c with
  | None => (Ok None, c)
  | Some (i, d) =>
      match apply_update u d with
      | None => (Raise WriteError, c)
      | Some d' =>
          if dup_key d' (delete i c) then (Raise DuplicateKeyError, c)
          else (Ok (Some d'), <[i := d']> c)
      end
  end.

(** The result is [deleted_count]. *)
Definition delete_one (q : query) : M Z := λ c,
  match first_match q c with
  | None => (Ok 0, c)
  | Some (i, _) => (Ok 1, delete i c)
  end.

End Server.

(** The connection during one driver call: sound, or broken either before
    the request reached the server or after the server applied it.  A broken
    connection surfaces as [AutoReconnect] in both cases. *)
Inductive link :=
| Up
| Down (applied : bool).

Definition call {A} (net : link) (srv : M A) : M A := λ c,
  match net with
  | Up => srv c
  | Down false => (Raise AutoReconnect, c)
  | Down true => (Raise AutoReconnect, (srv c).2)
  end.

Definition insert_one (net : link) (d : doc) : M unit :=
  call net (Server.insert_one d).
Definition find_one (net : link) (q : query) : M (option doc) :=
  call net (Server.find_one q).
Definition find_one_and_update (net : link) (q : query) (u : update) : M (option doc) :=
  call net (Server.find_one_and_update q u).
Definition delete_one (net : link) (q : query) : M Z :=
  call net (Server.delete_one q).

(** ** [avery.api]: the job record *)

(** Modelled from the spec: [avery/api.py], which declares [AveryJob], is
    not among the sources.  The record is a pure data container built from
    a raw attribute mapping, the identifier being passed apart from the
    remaining fields. *)
Record AveryJob := mkAveryJob { job_id : value; attrs : gmap string value }.

(** Modelled from the spec: the named status constants of [AveryJob].  Only
    that they are pairwise distinct is ever used. *)
Definition IDLE : value := VStr "IDLE".
Definition LOCKED : value := VStr "LOCKED".
Definition CANCELLED : value := VStr "CANCELLED".

(** ** [AveryController] *)

(** [timedelta(minutes=10)], in milliseconds. *)
Definition HEARTBEAT_TIMEOUT : Z := 10 * 60 * 1000.

(** [AveryJob(doc.pop('job_id'), **doc)]; the argument may be [None]. *)
Definition _job_from_doc (r : option doc) : outcome AveryJob :=
  match r with
  | None => Raise AttributeError
  | Some d =>
      match d !! "job_id" with
      | None => Raise KeyError
      | Some j => Ok (mkAveryJob j (delete "job_id" d))
      end
  end.

(** [except pymongo.errors.AutoReconnect: raise RetriableError(...)] *)
Definition except_AutoReconnect {A} (e : exn) : option (M A) :=
  match e with
  | AutoReconnect => Some (raise RetriableError)
  | _ => None
  end.

(** A Python method returns a job or [None]: [option AveryJob]. *)
Definition _update_job (net : link) (job_id version : value)
    (kwargs : gmap string value) : M (option AveryJob) :=
  let query := [("job_id", Eq job_id); ("version", Eq version)] in
  let update := Update [("version", 1)] kwargs in
  r ← try_except (find_one_and_update net query update) except_AutoReconnect;
  match r with
  | None => raise ConcurrencyError
  | Some _ => mret None
  end.

Definition get_job (net : link) (job_id : value) : M (option AveryJob) :=
  doc ← try_except (find_one net [("job_id", Eq job_id)]) except_AutoReconnect;
  job ← lift (_job_from_doc doc);
  mret (Some job).

Definition create_job (net : link) (job_id tag args : value) : M (option AveryJob) :=
  let doc : gmap string value :=
    {[ "job_id" := job_id; "tag" := tag; "args" := py_or args (VDict FNil);
       "version" := VInt 0; "status" := IDLE ]} in
  _ ← try_except (insert_one net doc)
        (λ e, match e with
              | AutoReconnect => Some (raise RetriableError)
              | DuplicateKeyError => Some (mret ())
              | _ => None
              end);
  mret None.

Definition cancel_job (net : link) (job_id version : value) : M (option AveryJob) :=
  _ ← _update_job net job_id version {[ "status" := CANCELLED ]};
  mret None.

Definition delete_job (net : link) (job_id version : value) : M (option AveryJob) :=
  r ← try_except (delete_one net [("job_id", Eq job_id); ("version", Eq version)])
        except_AutoReconnect;
  if r =? 0 then raise ConcurrencyError
  else if r =? 1 then mret None
  else raise AssertionError.

(** [if r:] is the truth value of a dictionary: [None] or an empty one is
    false. *)
Definition _find_one_and_update (net : link) (query : query) (update : update)
    : M (option AveryJob) :=
  r ← try_except (find_one_and_update net query update) except_AutoReconnect;
  match r with
  | Some d =>
      if bool_decide (d = ∅) then mret None
      else job ← lift (_job_from_doc (Some d)); mret (Some job)
  | None => mret None
  end.

(** [now] is the reading of [datetime.utcnow()]. *)
Definition _try_acquire_idle_job (net : link) (now : Z) (tags : list value)
    (worker_id : value) : M (option AveryJob) :=
  let query := [("tag", In tags); ("status", Eq IDLE)] in
  let update := Update [("version", 1)]
                  {[ "status" := LOCKED; "worker_id" := worker_id;
                     "worker_heartbeat" := VDate now ]} in
  _find_one_and_update net query update.

(** The clock is read twice: [now_q] for the filter, [now_u] for the
    update. *)
Definition _try_reacquire_locked_job (net : link) (now_q now_u : Z)
    (tags : list value) (worker_id : value) : M (option AveryJob) :=
  let query := [("tag", In tags); ("status", Eq LOCKED);
                ("worker_heartbeat", LtDate (now_q - HEARTBEAT_TIMEOUT))] in
  let update := Update [("version", 1)]
                  {[ "status" := LOCKED; "worker_id" := worker_id;
                     "worker_heartbeat" := VDate now_u ]} in
  _find_one_and_update net query update.

(** What one call of [acquire_job] meets: the connection and the clock of
    the idle claim, then those of the stale-lease reclaim. *)
Record acquire_env := AcquireEnv {
  idle_net : link; idle_now : Z;
  stale_net : link; stale_now_q : Z; stale_now_u : Z }.

Definition acquire_job (e : acquire_env) (tags : list value) (worker_id : value)
    : M (option AveryJob) :=
  job ← _try_acquire_idle_job (idle_net e) (idle_now e) tags worker_id;
  job ← match job with
        | None => _try_reacquire_locked_job (stale_net e) (stale_now_q e)
                    (stale_now_u e) tags worker_id
        | Some _ => mret job
        end;
  match job with
  | None => mret None
  | Some _ => mret job
  end.

Definition heartbeat_job (net : link) (now : Z) (job_id version : value)
    : M (option AveryJob) :=
  _ ← _update_job net job_id version {[ "worker_heartbeat" := VDate now ]};
  mret None.

(** [worker_exception] defaults to [None]. *)
Definition finalize_job (net : link) (job_id version status worker_exception : value)
    : M (option AveryJob) :=
  _ ← _update_job net job_id version
        {[ "status" := status; "worker_exception" := worker_exception ]};
  mret None.

(** * Vocabulary of the specification *)

Definition has_id (j : value) (d : doc) : Prop := field d "job_id" = j.

#[global] Instance has_id_dec j d : Decision (has_id j d) :=
  decide (field d "job_id" = j).

(** The record stored under an identifier: the first document carrying it
    (the only one, under the unique index). *)
Definition stored (c : collection) (j : value) : option doc :=
  snd <$> list_find (has_id j) c.

Definition ids (c : collection) : list value := (λ d : doc, field d "job_id") <$> c.

(** Every document carries its identifier and a non-negative integer
    version. *)
Definition wf_doc (d : doc) : Prop :=
  is_Some (d !! "job_id") ∧ ∃ n, d !! "version" = Some (VInt n) ∧ 0 ≤ n.

Definition wf (c : collection) : Prop := NoDup (ids c) ∧ Forall wf_doc c.

Definition version_of (d : doc) : Z :=
  match d !! "version" with
  | Some (VInt n) => n
  | _ => 0
  end.

(** What [{'$inc': {'version': 1}, '$set': kwargs}] makes of a document. *)
Definition updated (kwargs : gmap string value) (d : doc) : doc :=
  <["version" := VInt (version_of d + 1)]> (kwargs ∪ d).

(** The assignments a caller may pass: the key and the version counter are
    not among them. *)
Definition assignable (kwargs : gmap string value) : Prop :=
  kwargs !! "version" = None ∧ kwargs !! "job_id" = None.

(** The job built from a document that carries its identifier. *)
Definition job_of (d : doc) : AveryJob :=
  mkAveryJob (field d "job_id") (delete "job_id" d).

(** The assignments of both acquisition phases. *)
Definition lease (worker_id : value) (now : Z) : gmap string value :=
  {[ "status" := LOCKED; "worker_id" := worker_id;
     "worker_heartbeat" := VDate now ]}.

(** ** Histories of calls *)

(** One call of a public method, with what it meets. *)
Inductive request :=
| CreateJob (net : link) (job_id tag args : value)
| GetJob (net : link) (job_id : value)
| CancelJob (net : link) (job_id version : value)
| DeleteJob (net : link) (job_id version : value)
| AcquireJob (e : acquire_env) (tags : list value) (worker_id : value)
| HeartbeatJob (net : link) (now : Z) (job_id version : value)
| FinalizeJob (net : link) (job_id version status worker_exception : value).

Definition perform (r : request) : M (option AveryJob) :=
  match r with
  | CreateJob net j tag args => create_job net j tag args
  | GetJob net j => get_job net j
  | CancelJob net j v => cancel_job net j v
  | DeleteJob net j v => delete_job net j v
  | AcquireJob e tags w => acquire_job e tags w
  | HeartbeatJob net now j v => heartbeat_job net now j v
  | FinalizeJob net j v status exc => finalize_job net j v status exc
  end.

(** The calls of a history one after the other: their outcomes and the
    collection they leave. *)
Fixpoint run (rs : list request) (c : collection)
    : list (outcome (option AveryJob)) * collection :=
  match rs with
  | [] => ([], c)
  | r :: rs' =>
      let oc := perform r c in
      let ocs := run rs' oc.2 in
      (oc.1 :: ocs.1, ocs.2)
  end.

(** The call is a mutation of job [j] that succeeded: a cancel, heartbeat
    or finalize of [j] that returned, or an acquisition that returned [j]. *)
Definition mutates (j : value) (r : request) (o : outcome (option AveryJob)) : bool :=
  match r, o with
  | CancelJob _ j' _, Ok _ => bool_decide (j' = j)
  | HeartbeatJob _ _ j' _, Ok _ => bool_decide (j' = j)
  | FinalizeJob _ j' _ _ _, Ok _ => bool_decide (j' = j)
  | AcquireJob _ _ _, Ok (Some job) => bool_decide (job_id job = j)
  | _, _ => false
  end.

Fixpoint successes (j : value) (rs : list request)
    (os : list (outcome (option AveryJob))) : Z :=
  match rs, os with
  | r :: rs', o :: os' => (if mutates j r o then 1 else 0) + successes j rs' os'
  | _, _ => 0
  end.

Definition deletes (j : value) (r : request) : Prop :=
  match r with
  | DeleteJob _ j' _ => j' = j
  | _ => False
  end.

(** No acknowledgement is lost: the connection never breaks after the
    server has applied a request. *)
Definition acked (net : link) : Prop := net ≠ Down true.

Definition lossless (r : request) : Prop :=
  match r with
  | CreateJob net _ _ _ | GetJob net _ | CancelJob net _ _ | DeleteJob net _ _
  | HeartbeatJob net _ _ _ | FinalizeJob net _ _ _ _ => acked net
  | AcquireJob e _ _ => acked (idle_net e) ∧ acked (stale_net e)
  end.

(** The record of [j] is there before and after every call of the
    history. *)
Fixpoint present (j : value) (rs : list request) (c : collection) : Prop :=
  is_Some (stored c j) ∧
  match rs with
  | [] => True
  | r :: rs' => present j rs' (perform r c).2
  end.

(** What a call leaves of the record [d] of [j]: it is still there, its
    version is the same or one more, it is one more when [hit] says that the
    call was a successful mutation of [j], and, when [exact] holds, only
    then. *)
Definition tracks (j : value) (d : doc) (c' : collection) (hit : bool)
    (exact : Prop) : Prop :=
  wf c' ∧ ∃ d', stored c' j = Some d' ∧
    (version_of d' = version_of d ∨ version_of d' = version_of d + 1) ∧
    (hit = true → version_of d' = version_of d + 1) ∧
    (exact → version_of d' = version_of d + (if hit then 1 else 0)).

(** ** Concrete data used to exercise the theorems *)

(** The document [create_job] writes. *)
Definition fresh_doc (job_id tag args : value) : doc :=
  {[ "job_id" := job_id; "tag" := tag; "args" := py_or args (VDict FNil);
     "version" := VInt 0; "status" := IDLE ]}.

Definition J1 : value := VStr "J1".
Definition J2 : value := VStr "J2".
Definition build : value := VStr "build".

(** One idle job, as left by [create_job("J1", "build")]. *)
Definition one_idle : collection := [fresh_doc J1 build VNone].

(** A sound connection throughout, all clock readings at [now]. *)
Definition calm (now : Z) : acquire_env := AcquireEnv Up now Up now now.

(** The job of [one_idle] leased to worker [w1] at time 1000. *)
Definition one_locked : collection :=
  [updated (lease (VStr "w1") 1000) (fresh_doc J1 build VNone)].

(** The same job reclaimed by worker [w2], its clock reading 700001. *)
Definition relocked : doc :=
  updated (lease (VStr "w2") 700001)
    (updated (lease (VStr "w1") 1000) (fresh_doc J1 build VNone)).

(** The job of [one_idle] cancelled. *)
Definition one_cancelled : collection :=
  [updated {[ "status" := CANCELLED ]} (fresh_doc J1 build VNone)].

(** The leased job finalized by its worker with the status [IDLE]. *)
Definition finalized_as_idle : collection :=
  (finalize_job Up J1 (VInt 1) IDLE VNone one_locked).2.

(** A history for job [J1]: a cancel and a delete at stale versions, which
    fail; an acquisition; a heartbeat that the server applies while its
    acknowledgement is lost; a read; a finalization. *)
Definition eventful : list request :=
  [ CancelJob Up J1 (VInt 5);
    DeleteJob Up J1 (VInt 9);
    AcquireJob (calm 1000) [build] (VStr "w1");
    HeartbeatJob (Down true) 2000 J1 (VInt 1);
    GetJob Up J1;
    FinalizeJob Up J1 (VInt 2) (VStr "done") VNone ].

(** ** Two acquisitions at once *)

(** Where one call of [acquire_job] stands: before its idle claim, before
    its reclaim, or returned. *)
Inductive stage :=
| AtIdle
| AtStale
| Returned (o : outcome (option AveryJob)).

(** A worker calling [acquire_job] and what its call meets. *)
Record caller := Caller {
  c_env : acquire_env; c_tags : list value; c_worker : value }.

(** The next driver call of a caller, served by the store in one piece, and
    where the caller stands after it. *)
Definition advance (p : caller) (s : stage) (c : collection)
    : option (stage * collection) :=
  match s with
  | AtIdle =>
      let r := _try_acquire_idle_job (idle_net (c_env p)) (idle_now (c_env p))
                 (c_tags p) (c_worker p) c in
      Some (match r.1 with Ok None => AtStale | o => Returned o end, r.2)
  | AtStale =>
      let r := _try_reacquire_locked_job (stale_net (c_env p)) (stale_now_q (c_env p))
                 (stale_now_u (c_env p)) (c_tags p) (c_worker p) c in
      Some (Returned r.1, r.2)
  | Returned _ => None
  end.

(** One step of two concurrent calls: either caller makes its next driver
    call. *)
Inductive race (a b : caller)
    : collection * stage * stage → collection * stage * stage → Prop :=
| race_left c sa sb sa' c' :
    advance a sa c = Some (sa', c') → race a b (c, sa, sb) (c', sa', sb)
| race_right c sa sb sb' c' :
    advance b sb c = Some (sb', c') → race a b (c, sa, sb) (c', sa, sb').

(** The calls overlap in time: the staleness cutoff of [q] is not past the
    heartbeats that [p] writes. *)
Definition timely (p q : caller) : Prop :=
  stale_now_q (c_env q) - HEARTBEAT_TIMEOUT ≤ idle_now (c_env p) ∧
  stale_now_q (c_env q) - HEARTBEAT_TIMEOUT ≤ stale_now_u (c_env p).

(** Two workers asking for [build] jobs at about the same time. *)
Definition worker1 : caller := Caller (calm 1000) [build] (VStr "w1").
Definition worker2 : caller := Caller (calm 1001) [build; VStr "test"] (VStr "w2").

(** A lease held against caller [q]: the caller at stage [s] has returned a
    job whose record is [LOCKED] with a heartbeat that the cutoff of [q] has
    not passed. *)
Definition held_against (q : caller) (c : collection) (s : stage) : Prop :=
  ∀ job, s = Returned (Ok (Some job)) →
    ∃ d h, stored c (job_id job) = Some d ∧ field d "status" = LOCKED ∧
           d !! "worker_heartbeat" = Some (VDate h) ∧
           stale_now_q (c_env q) - HEARTBEAT_TIMEOUT ≤ h.

(** What two racing calls keep: the collection is well formed, a job that
    one has returned is held against the other, and they have not returned
    the same job. *)
Definition exclusive (a b : caller) (cfg : collection * stage * stage) : Prop :=
  let '(c, sa, sb) := cfg in
  wf c ∧ held_against b c sa ∧ held_against a c sb ∧
  ∀ ja jb, sa = Returned (Ok (Some ja)) → sb = Returned (Ok (Some jb)) →
           job_id ja ≠ job_id jb.

(** Two idle jobs with the same tag. *)
Definition two_idle : collection :=
  [fresh_doc J1 build VNone; fresh_doc J2 build VNone].

(** The record [d] once the idle claim of caller [p] has taken it. *)
Definition taken_by (p : caller) (d : doc) : doc :=
  updated (lease (c_worker p) (idle_now (c_env p))) d.

(** A history from the empty collection: two creations, one of them
    retried after a lost acknowledgement, a lease, its end and a deletion. *)
Definition busy_history : list request :=
  [ CreateJob Up J1 build VNone;
    CreateJob (Down true) J2 build (VInt 7);
    CreateJob Up J2 build (VInt 7);
    AcquireJob (calm 1000) [build] (VStr "w1");
    FinalizeJob Up J1 (VInt 1) (VStr "done") VNone;
    DeleteJob Up J1 (VInt 2) ].

(** A record that a call of [p] could take: its tag is requested and it is
    [IDLE], or [LOCKED] with a heartbeat older than the cutoff of [p]. *)
Definition eligible (p : caller) (x : doc) : Prop :=
  field x "tag" ∈ c_tags p ∧
  (field x "status" = IDLE
   ∨ (field x "status" = LOCKED ∧
      ∃ h, x !! "worker_heartbeat" = Some (VDate h) ∧
           h < stale_now_q (c_env p) - HEARTBEAT_TIMEOUT)).

(** A worker whose clock is more than ten minutes ahead of [worker1]. *)
Definition late_worker : caller := Caller (calm 700000) [build] (VStr "w2").

(** * Basic facts *)

(** ** Running the monad *)

Lemma bind_run {A B} (m : M A) (k : A → M B) (c : collection) :
  (m ≫= k) c = match m c with
               | (Ok a, c') => k a c'
               | (Raise e, c') => (Raise e, c')
               end.
Proof. reflexivity. Qed.

Lemma call_Up {A} (srv : M A) c : call Up srv c = srv c.
Proof. reflexivity. Qed.

Lemma call_Down_fst {A} b (srv : M A) c : (call (Down b) srv c).1 = Raise AutoReconnect.
Proof. by destruct b. Qed.

Lemma call_snd {A} net (srv : M A) c :
  (call net srv c).2 = c ∨ (call net srv c).2 = (srv c).2.
Proof. destruct net as [|[]]; simpl; auto. Qed.

(** ** Filters *)

Lemma matches_cons d kc q : matches (kc :: q) d = holds d kc && matches q d.
Proof. reflexivity. Qed.

Lemma matches_id_version j v d :
  matches [("job_id", Eq j); ("version", Eq v)] d = true
  ↔ field d "job_id" = j ∧ field d "version" = v.
Proof.
  unfold matches, holds; simpl.
  rewrite !andb_true_iff, !bool_decide_eq_true. tauto.
Qed.

Lemma matches_id j d : matches [("job_id", Eq j)] d = true ↔ has_id j d.
Proof.
  unfold matches, holds, has_id; simpl.
  rewrite andb_true_iff, bool_decide_eq_true. tauto.
Qed.

Lemma matches_idle tags d :
  matches [("tag", In tags); ("status", Eq IDLE)] d = true
  ↔ field d "tag" ∈ tags ∧ field d "status" = IDLE.
Proof.
  unfold matches, holds; simpl.
  rewrite !andb_true_iff, !bool_decide_eq_true. tauto.
Qed.

Lemma matches_stale tags cutoff d :
  matches [("tag", In tags); ("status", Eq LOCKED);
           ("worker_heartbeat", LtDate cutoff)] d = true
  ↔ field d "tag" ∈ tags ∧ field d "status" = LOCKED
    ∧ ∃ h, d !! "worker_heartbeat" = Some (VDate h) ∧ h < cutoff.
Proof.
  unfold matches, holds; simpl.
  rewrite !andb_true_iff, !bool_decide_eq_true. split.
  - intros (Ht & Hs & Hh & _). repeat split; try done.
    destruct (d !! "worker_heartbeat") as [[]|]; try done.
    eexists; split; [done|]. by apply Z.ltb_lt.
  - intros (Ht & Hs & h & -> & Hh). repeat split; try done. by apply Z.ltb_lt.
Qed.

Lemma first_match_Some q c i d :
  Server.first_match q c = Some (i, d)
  ↔ c !! i = Some d ∧ matches q d = true
    ∧ ∀ k y, c !! k = Some y → (k < i)%nat → matches q y ≠ true.
Proof. unfold Server.first_match. by rewrite list_find_Some. Qed.

Lemma first_match_None q c :
  Server.first_match q c = None ↔ ∀ d, d ∈ c → matches q d ≠ true.
Proof.
  unfold Server.first_match. rewrite list_find_None, Forall_forall. done.
Qed.

Lemma first_match_is_Some q c d :
  d ∈ c → matches q d = true → is_Some (Server.first_match q c).
Proof.
  intros Hin Hm. destruct (Server.first_match q c) eqn:E; [done|].
  rewrite first_match_None in E. by destruct (E d Hin).
Qed.

(** ** The record under an identifier *)

Lemma stored_Some_elem c j d : stored c j = Some d → d ∈ c ∧ has_id j d.
Proof.
  unfold stored. destruct (list_find (has_id j) c) as [[i x]|] eqn:E; [|done].
  intros [= <-]. apply list_find_Some in E as (Hi & Hx & _).
  split; [by eapply list_elem_of_lookup_2|done].
Qed.

Lemma stored_None c j : stored c j = None ↔ ∀ d, d ∈ c → ¬ has_id j d.
Proof.
  unfold stored. rewrite fmap_None, list_find_None, Forall_forall. done.
Qed.

Lemma ids_lookup c i d : c !! i = Some d → ids c !! i = Some (field d "job_id").
Proof. intros H. unfold ids. by rewrite list_lookup_fmap, H. Qed.

(** Under the unique index two documents with one identifier are one. *)
Lemma unique_index c i k d d' :
  NoDup (ids c) → c !! i = Some d → c !! k = Some d' →
  field d "job_id" = field d' "job_id" → i = k.
Proof.
  intros Hnd Hi Hk Heq. eapply NoDup_lookup; [done|by apply ids_lookup|].
  rewrite Heq. by apply ids_lookup.
Qed.

Lemma stored_lookup c i j d :
  NoDup (ids c) → c !! i = Some d → has_id j d → stored c j = Some d.
Proof.
  intros Hnd Hi Hj. unfold stored.
  destruct (list_find (has_id j) c) as [[k x]|] eqn:E.
  - apply list_find_Some in E as (Hk & Hx & _). simpl. f_equal.
    assert (i = k) as ->.
    { eapply unique_index; eauto. unfold has_id in *. congruence. }
    congruence.
  - apply list_find_None in E. rewrite Forall_forall in E.
    destruct (E d); [by eapply list_elem_of_lookup_2|done].
Qed.

Lemma stored_elem c j d :
  NoDup (ids c) → d ∈ c → has_id j d → stored c j = Some d.
Proof.
  intros Hnd [i Hi]%list_elem_of_lookup_1 Hj. by eapply stored_lookup.
Qed.

Lemma stored_index c j d : stored c j = Some d → ∃ i, c !! i = Some d ∧ has_id j d.
Proof.
  intros [[i Hi]%list_elem_of_lookup_1 Hj]%stored_Some_elem. eauto.
Qed.

(** Replacing a document by one with the same identifier. *)
Lemma ids_insert c i d d' :
  c !! i = Some d → field d' "job_id" = field d "job_id" →
  ids (<[i := d']> c) = ids c.
Proof.
  intros Hi Heq. unfold ids. rewrite list_fmap_insert, Heq.
  apply list_insert_id. by rewrite list_lookup_fmap, Hi.
Qed.

Lemma stored_insert_eq c i j d d' :
  NoDup (ids c) → c !! i = Some d → has_id j d → has_id j d' →
  stored (<[i := d']> c) j = Some d'.
Proof.
  intros Hnd Hi Hj Hj'. apply stored_lookup with i; [|
    apply list_lookup_insert_eq; by eapply lookup_lt_Some|done].
  erewrite ids_insert; eauto. unfold has_id in *. congruence.
Qed.

Lemma stored_insert_ne c i j j' d d' :
  NoDup (ids c) → c !! i = Some d → has_id j d → has_id j d' → j' ≠ j →
  stored (<[i := d']> c) j' = stored c j'.
Proof.
  intros Hnd Hi Hj Hj' Hne.
  assert (NoDup (ids (<[i := d']> c))) as Hnd'.
  { erewrite ids_insert; eauto. unfold has_id in *. congruence. }
  destruct (stored c j') as [x|] eqn:E.
  - apply stored_index in E as (k & Hk & Hx).
    apply stored_lookup with k; [done| |done].
    rewrite list_lookup_insert_ne; [done|]. intros ->.
    unfold has_id in *. congruence.
  - apply stored_None. intros x [k Hk]%list_elem_of_lookup_1 Hx.
    rewrite stored_None in E. destruct (decide (i = k)) as [->|Hik].
    + apply list_lookup_insert_Some in Hk as [(_ & <- & _)|(? & _)]; [|done].
      unfold has_id in *. congruence.
    + rewrite list_lookup_insert_ne in Hk by done.
      eapply E; [by eapply list_elem_of_lookup_2|done].
Qed.

(** Removing a document. *)
Lemma ids_delete c i : ids (delete i c) = delete i (ids c).
Proof. unfold ids. by rewrite list_fmap_delete. Qed.

Lemma NoDup_delete {A} (l : list A) i : NoDup l → NoDup (delete i l).
Proof. intros H. eapply sublist_NoDup; [done|apply sublist_delete]. Qed.

Lemma elem_of_delete {A} (l : list A) i x : x ∈ delete i l → x ∈ l.
Proof.
  intros [k Hk]%list_elem_of_lookup_1. rewrite list_lookup_delete in Hk.
  by eapply list_elem_of_lookup_2.
Qed.

Lemma stored_delete_eq c i j d :
  NoDup (ids c) → c !! i = Some d → has_id j d → stored (delete i c) j = None.
Proof.
  intros Hnd Hi Hj. apply stored_None. intros x [k Hk]%list_elem_of_lookup_1 Hx.
  destruct (decide (k < i)%nat) as [Hlt|Hge].
  - rewrite list_lookup_delete_lt in Hk by done.
    assert (i = k) by (eapply unique_index; eauto; unfold has_id in *; congruence).
    lia.
  - rewrite list_lookup_delete_ge in Hk by lia.
    assert (i = S k) by (eapply unique_index; eauto; unfold has_id in *; congruence).
    lia.
Qed.

Lemma stored_delete_ne c i j j' d :
  NoDup (ids c) → c !! i = Some d → has_id j d → j' ≠ j →
  stored (delete i c) j' = stored c j'.
Proof.
  intros Hnd Hi Hj Hne.
  assert (NoDup (ids (delete i c))) as Hnd'.
  { rewrite ids_delete. by apply NoDup_delete. }
  destruct (stored c j') as [x|] eqn:E.
  - apply stored_index in E as (k & Hk & Hx).
    assert (k ≠ i) by (intros ->; unfold has_id in *; congruence).
    destruct (decide (k < i)%nat).
    + apply stored_lookup with k; [done| |done]. by rewrite list_lookup_delete_lt.
    + apply stored_lookup with (pred k); [done| |done].
      rewrite list_lookup_delete_ge by lia. rewrite <- Hk. f_equal. lia.
  - apply stored_None. intros x Hx%elem_of_delete.
    rewrite stored_None in E. by apply E.
Qed.

(** Appending a document with a fresh identifier. *)
Lemma dup_key_false d c :
  Server.dup_key d c = false ↔ stored c (field d "job_id") = None.
Proof.
  unfold Server.dup_key. rewrite stored_None. split.
  - intros H x Hx Hid. apply not_true_iff_false in H. apply H.
    apply existsb_exists. exists x. split; [by apply list_elem_of_In|].
    by apply bool_decide_eq_true.
  - intros H. apply not_true_iff_false.
    intros (x & Hx%list_elem_of_In & Hid%bool_decide_eq_true)%existsb_exists.
    by eapply H.
Qed.

Lemma ids_app c d : ids (c ++ [d]) = ids c ++ [field d "job_id"].
Proof. unfold ids. by rewrite fmap_app. Qed.

Lemma NoDup_ids_app c d :
  NoDup (ids c) → stored c (field d "job_id") = None → NoDup (ids (c ++ [d])).
Proof.
  intros Hnd Hnone. rewrite ids_app. apply NoDup_app. split; [done|].
  split; [|apply NoDup_singleton].
  intros x Hx ->%list_elem_of_singleton. unfold ids in Hx.
  apply list_elem_of_fmap in Hx as (y & Hy & Hin).
  rewrite stored_None in Hnone. by eapply Hnone.
Qed.

Lemma stored_app_eq c d :
  NoDup (ids c) → stored c (field d "job_id") = None →
  stored (c ++ [d]) (field d "job_id") = Some d.
Proof.
  intros Hnd Hnone. apply stored_elem; [by apply NoDup_ids_app| |reflexivity].
  apply elem_of_app. right. by apply list_elem_of_singleton.
Qed.

Lemma stored_app_ne c d j :
  j ≠ field d "job_id" → stored (c ++ [d]) j = stored c j.
Proof.
  intros Hne. unfold stored.
  destruct (list_find (has_id j) c) as [[i x]|] eqn:E.
  - by erewrite list_find_app_l.
  - rewrite list_find_app_r by done. simpl.
    unfold has_id at 1. by rewrite decide_False by congruence.
Qed.

(** ** The version-bumping update *)


Lemma updated_version kw d : updated kw d !! "version" = Some (VInt (version_of d + 1)).
Proof. unfold updated. by rewrite lookup_insert_eq. Qed.

Lemma updated_set kw d k x :
  k ≠ "version" → kw !! k = Some x → updated kw d !! k = Some x.
Proof.
  intros Hk Hx. unfold updated. rewrite lookup_insert_ne by done.
  by apply lookup_union_Some_l.
Qed.

Lemma updated_other kw d k :
  k ≠ "version" → kw !! k = None → updated kw d !! k = d !! k.
Proof.
  intros Hk Hx. unfold updated. rewrite lookup_insert_ne by done.
  by apply lookup_union_r.
Qed.

Lemma version_of_updated kw d : version_of (updated kw d) = version_of d + 1.
Proof. unfold version_of at 1. by rewrite updated_version. Qed.

Lemma field_updated_id kw d :
  assignable kw → field (updated kw d) "job_id" = field d "job_id".
Proof. intros [_ H]. unfold field. by rewrite updated_other. Qed.

Lemma wf_doc_version d : wf_doc d → d !! "version" = Some (VInt (version_of d)) ∧ 0 ≤ version_of d.
Proof. intros [_ (n & Hn & Hpos)]. unfold version_of. by rewrite Hn. Qed.

Lemma wf_doc_updated kw d : assignable kw → wf_doc d → wf_doc (updated kw d).
Proof.
  intros Hkw Hd. pose proof (wf_doc_version _ Hd) as [_ Hpos].
  destruct Hd as [Hid _], Hkw as [Hv Hj]. split.
  - by rewrite updated_other.
  - exists (version_of d + 1). rewrite updated_version. split; [done|lia].
Qed.

Lemma apply_update_bump kw d :
  kw !! "version" = None → wf_doc d →
  apply_update (Update [("version", 1)] kw) d = Some (updated kw d).
Proof.
  intros Hv [Hver _]%wf_doc_version. unfold apply_update, conflicting; simpl.
  rewrite Hv, bool_decide_eq_false_2 by (by intros [? ?]). simpl.
  rewrite lookup_union_r, Hver by done. done.
Qed.

Lemma wf_lookup c i d : wf c → c !! i = Some d → wf_doc d.
Proof. intros [_ H] Hi. rewrite Forall_lookup in H. by eapply H. Qed.

Lemma wf_stored c j d : wf c → stored c j = Some d → wf_doc d ∧ d !! "job_id" = Some j.
Proof.
  intros Hwf (i & Hi & Hj)%stored_index.
  pose proof (wf_lookup _ _ _ Hwf Hi) as Hd. split; [done|].
  destruct Hd as [[x Hx] _]. unfold has_id, field in Hj. rewrite Hx in Hj.
  simpl in Hj. by subst.
Qed.

Lemma wf_nil : wf [].
Proof. split; [apply NoDup_nil_2|apply Forall_nil_2]. Qed.

Lemma wf_insert c i d kw :
  wf c → c !! i = Some d → assignable kw → wf (<[i := updated kw d]> c).
Proof.
  intros Hwf Hi Hkw. pose proof (wf_lookup _ _ _ Hwf Hi) as Hd.
  destruct Hwf as [Hnd Hall]. split.
  - erewrite ids_insert; eauto using field_updated_id.
  - apply Forall_insert; [done|]. by apply wf_doc_updated.
Qed.

Lemma wf_delete c i : wf c → wf (delete i c).
Proof.
  intros [Hnd Hall]. split.
  - rewrite ids_delete. by apply NoDup_delete.
  - apply Forall_forall. intros x Hx%elem_of_delete.
    rewrite Forall_forall in Hall. by apply Hall.
Qed.

Lemma wf_app c d :
  wf c → wf_doc d → stored c (field d "job_id") = None → wf (c ++ [d]).
Proof.
  intros [Hnd Hall] Hd Hnone. split; [by apply NoDup_ids_app|].
  apply Forall_app. split; [done|]. by apply Forall_singleton.
Qed.

(** ** The server's conditional update, on a well-formed collection *)

Lemma server_update_hit q kw c i d :
  wf c → assignable kw → Server.first_match q c = Some (i, d) →
  Server.find_one_and_update q (Update [("version", 1)] kw) c
  = (Ok (Some (updated kw d)), <[i := updated kw d]> c).
Proof.
  intros Hwf Hkw Hfm. unfold Server.find_one_and_update. rewrite Hfm.
  apply first_match_Some in Hfm as (Hi & _ & _).
  rewrite apply_update_bump; [|apply Hkw|by eapply wf_lookup].
  assert (Server.dup_key (updated kw d) (delete i c) = false) as ->; [|done].
  apply dup_key_false. rewrite field_updated_id by done.
  eapply stored_delete_eq; [apply Hwf|done|reflexivity].
Qed.

Lemma server_update_miss q u c :
  Server.first_match q c = None → Server.find_one_and_update q u c = (Ok None, c).
Proof. intros Hfm. unfold Server.find_one_and_update. by rewrite Hfm. Qed.

(** A broken connection always surfaces as [RetriableError]. *)
Lemma retriable_Down {A} b (srv : M A) c :
  try_except (call (Down b) srv) except_AutoReconnect c
  = (Raise RetriableError, if b then (srv c).2 else c).
Proof. by destruct b. Qed.

Lemma retriable_Up_Ok {A} (srv : M A) c a c' :
  srv c = (Ok a, c') → try_except (call Up srv) except_AutoReconnect c = (Ok a, c').
Proof. intros H. unfold try_except, call. by rewrite H. Qed.

(** ** [_update_job] *)

Lemma _update_job_hit j v kw c i d :
  wf c → assignable kw →
  Server.first_match [("job_id", Eq j); ("version", Eq v)] c = Some (i, d) →
  _update_job Up j v kw c = (Ok None, <[i := updated kw d]> c).
Proof.
  intros Hwf Hkw Hfm. unfold _update_job. rewrite bind_run.
  unfold find_one_and_update.
  erewrite retriable_Up_Ok; [|by apply server_update_hit]. done.
Qed.

Lemma _update_job_miss j v kw c :
  Server.first_match [("job_id", Eq j); ("version", Eq v)] c = None →
  _update_job Up j v kw c = (Raise ConcurrencyError, c).
Proof.
  intros Hfm. unfold _update_job. rewrite bind_run. unfold find_one_and_update.
  erewrite retriable_Up_Ok; [|by apply server_update_miss]. done.
Qed.

Lemma _update_job_Down b j v kw c :
  (_update_job (Down b) j v kw c).1 = Raise RetriableError.
Proof.
  unfold _update_job. rewrite bind_run. unfold find_one_and_update.
  by rewrite retriable_Down.
Qed.

(** The filter on identifier and version finds the stored record exactly
    when its version is the expected one. *)
Lemma first_match_stored c j v d :
  wf c → stored c j = Some d → field d "version" = v →
  ∃ i, c !! i = Some d ∧
       Server.first_match [("job_id", Eq j); ("version", Eq v)] c = Some (i, d).
Proof.
  intros Hwf (i & Hi & Hj)%stored_index Hv. exists i. split; [done|].
  apply first_match_Some. split; [done|]. split; [by apply matches_id_version|].
  intros k y Hk Hlt [Hy _]%matches_id_version.
  assert (i = k); [|lia].
  eapply unique_index; [apply Hwf|done..|]. unfold has_id in Hj. congruence.
Qed.

Lemma first_match_absent c j v :
  (∀ d, d ∈ c → ¬ (field d "job_id" = j ∧ field d "version" = v)) ↔
  Server.first_match [("job_id", Eq j); ("version", Eq v)] c = None.
Proof.
  rewrite first_match_None. split; intros H d Hd Hm; apply (H d Hd);
    by apply matches_id_version.
Qed.

(** ** Well-formedness of concrete collections *)


Ltac solve_wf :=
  split;
  [ apply (bool_decide_unpack _); vm_compute; exact I
  | repeat (apply Forall_cons; split); try apply Forall_nil_2;
    (split; [eexists; vm_compute; reflexivity
            |eexists; split; [vm_compute; reflexivity|lia]]) ].

Lemma wf_one_idle : wf one_idle.
Proof. solve_wf. Qed.

(** * C1: the atomic update, on success *)

(** C1, amended.  If a record with the given identifier and exactly the
    expected version is stored, [_update_job] applies the field assignments,
    sets the version to the expected version plus one and leaves every other
    record alone; it returns [None], not the updated record. *)
Theorem update_job_success c j v kw d :
  wf c → assignable kw → stored c j = Some d → d !! "version" = Some (VInt v) →
  let r := _update_job Up j (VInt v) kw c in
  r.1 = Ok None ∧
  ∃ d', stored r.2 j = Some d' ∧
    d' !! "version" = Some (VInt (v + 1)) ∧
    (∀ k x, kw !! k = Some x → d' !! k = Some x) ∧
    (∀ k, k ≠ "version" → kw !! k = None → d' !! k = d !! k) ∧
    (∀ j', j' ≠ j → stored r.2 j' = stored c j').
Proof.
  intros Hwf Hkw Hst Hv r.
  assert (field d "version" = VInt v) as Hf by (unfold field; by rewrite Hv).
  destruct (first_match_stored _ _ _ _ Hwf Hst Hf) as (i & Hi & Hfm).
  assert (version_of d = v) as Hvo by (unfold version_of; by rewrite Hv).
  apply stored_Some_elem in Hst as [_ Hj].
  subst r. rewrite (_update_job_hit _ _ _ _ _ _ Hwf Hkw Hfm). simpl.
  split; [done|]. exists (updated kw d).
  assert (has_id j (updated kw d)) as Hj'.
  { unfold has_id. by rewrite field_updated_id. }
  split; [by eapply stored_insert_eq; [apply Hwf|..]|].
  split; [by rewrite updated_version, Hvo|].
  split; [|split].
  - intros k x Hk. apply updated_set; [|done]. destruct Hkw as [Hkv _]. congruence.
  - intros k Hk Hn. by apply updated_other.
  - intros j' Hne. by eapply stored_insert_ne; [apply Hwf|..].
Qed.

Lemma update_job_success_witness :
  let r := _update_job Up J1 (VInt 0) {[ "status" := CANCELLED ]} one_idle in
  r.1 = Ok None ∧
  ∃ d', stored r.2 J1 = Some d' ∧
    d' !! "version" = Some (VInt (0 + 1)) ∧
    (∀ k x, ({[ "status" := CANCELLED ]} : gmap string value) !! k = Some x
            → d' !! k = Some x) ∧
    (∀ k, k ≠ "version" →
          ({[ "status" := CANCELLED ]} : gmap string value) !! k = None →
          d' !! k = fresh_doc J1 build VNone !! k) ∧
    (∀ j', j' ≠ J1 → stored r.2 j' = stored one_idle j').
Proof.
  apply (update_job_success one_idle J1 0 {[ "status" := CANCELLED ]}
           (fresh_doc J1 build VNone)).
  - exact wf_one_idle.
  - split; vm_compute; reflexivity.
  - vm_compute; reflexivity.
  - vm_compute; reflexivity.
Defined.

(** C1 as stated fails: on a matching record [_update_job] succeeds and
    hands back [None]; no job record reaches the caller. *)
Lemma update_job_returns_no_record :
  stored one_idle J1 = Some (fresh_doc J1 build VNone) ∧
  fresh_doc J1 build VNone !! "version" = Some (VInt 0) ∧
  (_update_job Up J1 (VInt 0) {[ "status" := CANCELLED ]} one_idle).1 = Ok None ∧
  ¬ ∃ job, (_update_job Up J1 (VInt 0) {[ "status" := CANCELLED ]} one_idle).1
           = Ok (Some job).
Proof.
  assert ((_update_job Up J1 (VInt 0) {[ "status" := CANCELLED ]} one_idle).1
          = Ok None) as E by (vm_compute; reflexivity).
  split; [vm_compute; reflexivity|].
  split; [vm_compute; reflexivity|].
  split; [exact E|].
  intros [job H]. rewrite E in H. discriminate.
Qed.

(** * C2: the atomic update, on failure *)

Lemma _update_job_not_concurrency j v kw c i d :
  Server.first_match [("job_id", Eq j); ("version", Eq v)] c = Some (i, d) →
  (_update_job Up j v kw c).1 ≠ Raise ConcurrencyError.
Proof.
  intros Hfm. unfold _update_job. rewrite bind_run.
  unfold find_one_and_update, try_except, call, Server.find_one_and_update.
  rewrite Hfm. destruct (apply_update _ d); [|done].
  by destruct (Server.dup_key _ _).
Qed.

Lemma _update_job_miss_any net j v kw c :
  Server.first_match [("job_id", Eq j); ("version", Eq v)] c = None →
  (_update_job net j v kw c).2 = c.
Proof.
  intros Hfm. destruct net as [|b].
  - by rewrite _update_job_miss.
  - unfold _update_job. rewrite bind_run. unfold find_one_and_update.
    rewrite retriable_Down, server_update_miss by done. by destruct b.
Qed.

(** C2.  With a sound connection [_update_job] raises [ConcurrencyError]
    exactly when no record matches the identifier and the version; with a
    broken one it raises [RetriableError]; and when nothing matches, in
    particular when the record's version differs from the one supplied, the
    collection is left as it was. *)
Theorem update_job_failure c j v kw :
  ((_update_job Up j v kw c).1 = Raise ConcurrencyError
   ↔ ∀ d, d ∈ c → ¬ (field d "job_id" = j ∧ field d "version" = v)) ∧
  (∀ b, (_update_job (Down b) j v kw c).1 = Raise RetriableError) ∧
  (∀ net, (∀ d, d ∈ c → ¬ (field d "job_id" = j ∧ field d "version" = v)) →
          (_update_job net j v kw c).2 = c) ∧
  (∀ d, wf c → stored c j = Some d → field d "version" ≠ v →
        _update_job Up j v kw c = (Raise ConcurrencyError, c)).
Proof.
  split; [|split; [|split]].
  - rewrite first_match_absent. split.
    + intros H.
      destruct (Server.first_match _ c) as [[i d]|] eqn:E; [|done].
      by destruct (_update_job_not_concurrency _ _ kw _ _ _ E).
    + intros H. by rewrite _update_job_miss.
  - intros b. apply _update_job_Down.
  - intros net H. apply _update_job_miss_any. by apply first_match_absent.
  - intros d Hwf Hst Hv. apply _update_job_miss. apply first_match_absent.
    intros x Hx [Hj Hxv].
    assert (stored c j = Some x) as Hx' by (by apply stored_elem; [apply Hwf|..]).
    congruence.
Qed.

Lemma update_job_failure_witness :
  _update_job Up J1 (VInt 7) {[ "status" := CANCELLED ]} one_idle
  = (Raise ConcurrencyError, one_idle).
Proof.
  apply (update_job_failure one_idle J1 (VInt 7) {[ "status" := CANCELLED ]})
    with (d := fresh_doc J1 build VNone).
  - exact wf_one_idle.
  - vm_compute; reflexivity.
  - vm_compute. discriminate.
Defined.

(** * C7: creation *)

Lemma field_fresh_doc j tag args : field (fresh_doc j tag args) "job_id" = j.
Proof. unfold field, fresh_doc. by rewrite lookup_insert_eq. Qed.

Lemma wf_fresh_doc j tag args : wf_doc (fresh_doc j tag args).
Proof.
  split.
  - exists j. unfold fresh_doc. by rewrite lookup_insert_eq.
  - exists 0. split; [|done]. unfold fresh_doc.
    do 3 (rewrite lookup_insert_ne by done). by rewrite lookup_insert_eq.
Qed.

Lemma create_job_fresh j tag args c :
  stored c j = None →
  create_job Up j tag args c = (Ok None, c ++ [fresh_doc j tag args]).
Proof.
  intros Hnone. unfold create_job. fold (fresh_doc j tag args).
  rewrite bind_run. unfold try_except, insert_one, call, Server.insert_one.
  assert (Server.dup_key (fresh_doc j tag args) c = false) as ->; [|done].
  apply dup_key_false. by rewrite field_fresh_doc.
Qed.

Lemma create_job_dup j tag args c :
  is_Some (stored c j) → create_job Up j tag args c = (Ok None, c).
Proof.
  intros Hsome. unfold create_job. fold (fresh_doc j tag args).
  rewrite bind_run. unfold try_except, insert_one, call, Server.insert_one.
  destruct (Server.dup_key (fresh_doc j tag args) c) eqn:E; [done|].
  apply dup_key_false in E. rewrite field_fresh_doc in E.
  rewrite E in Hsome. by destruct Hsome.
Qed.

Lemma create_job_Down b j tag args c :
  (create_job (Down b) j tag args c).1 = Raise RetriableError.
Proof. by destruct b. Qed.

Lemma filter_has_id_None c j : stored c j = None → filter (has_id j) c = [].
Proof.
  rewrite stored_None. induction c as [|x c IH]; intros H; [done|].
  rewrite filter_cons_False by (apply H; left).
  apply IH. intros d Hd. apply H. by right.
Qed.

(** C7.  [create_job] appends a record with version 0 and status [IDLE]
    when the identifier is new, returns normally and changes nothing when
    it is taken, and raises [RetriableError] on a broken connection; after
    two calls with one identifier there is exactly one record under it, the
    one of the first call. *)
Theorem create_job_idempotent c j tag args :
  (stored c j = None →
     create_job Up j tag args c = (Ok None, c ++ [fresh_doc j tag args])
     ∧ fresh_doc j tag args !! "version" = Some (VInt 0)
     ∧ fresh_doc j tag args !! "status" = Some IDLE
     ∧ fresh_doc j tag args !! "tag" = Some tag) ∧
  (is_Some (stored c j) → create_job Up j tag args c = (Ok None, c)) ∧
  (∀ b, (create_job (Down b) j tag args c).1 = Raise RetriableError) ∧
  (∀ tag' args', wf c → stored c j = None →
     let c1 := (create_job Up j tag args c).2 in
     let r2 := create_job Up j tag' args' c1 in
     r2 = (Ok None, c1) ∧
     stored r2.2 j = Some (fresh_doc j tag args) ∧
     length (filter (has_id j) r2.2) = 1%nat).
Proof.
  split; [|split; [|split]].
  - intros Hnone. split; [by apply create_job_fresh|].
    repeat split.
  - apply create_job_dup.
  - intros b. apply create_job_Down.
  - intros tag' args' Hwf Hnone c1 r2. subst r2 c1.
    rewrite (create_job_fresh _ _ _ _ Hnone). simpl.
    assert (stored (c ++ [fresh_doc j tag args]) j = Some (fresh_doc j tag args)) as Hst.
    { rewrite <- (field_fresh_doc j tag args) at 2.
      apply stored_app_eq; [apply Hwf|]. by rewrite field_fresh_doc. }
    rewrite create_job_dup by (by rewrite Hst). simpl.
    split; [done|]. split; [done|].
    rewrite filter_app, filter_has_id_None by done. simpl.
    rewrite filter_cons_True by apply field_fresh_doc. done.
Qed.

Lemma create_job_idempotent_witness :
  let c1 := (create_job Up J1 build VNone []).2 in
  let r2 := create_job Up J1 (VStr "test") (VInt 3) c1 in
  r2 = (Ok None, c1) ∧
  stored r2.2 J1 = Some (fresh_doc J1 build VNone) ∧
  length (filter (has_id J1) r2.2) = 1%nat.
Proof.
  apply (create_job_idempotent [] J1 build VNone).
  - exact wf_nil.
  - reflexivity.
Defined.

(** * C8: deletion *)

Lemma delete_job_hit j v c i d :
  Server.first_match [("job_id", Eq j); ("version", Eq v)] c = Some (i, d) →
  delete_job Up j v c = (Ok None, delete i c).
Proof.
  intros Hfm. unfold delete_job. rewrite bind_run.
  unfold try_except, delete_one, call, Server.delete_one. by rewrite Hfm.
Qed.

Lemma delete_job_miss j v c :
  Server.first_match [("job_id", Eq j); ("version", Eq v)] c = None →
  delete_job Up j v c = (Raise ConcurrencyError, c).
Proof.
  intros Hfm. unfold delete_job. rewrite bind_run.
  unfold try_except, delete_one, call, Server.delete_one. by rewrite Hfm.
Qed.

Lemma delete_job_Down b j v c : (delete_job (Down b) j v c).1 = Raise RetriableError.
Proof. by destruct b. Qed.

(** C8.  [delete_job] removes the record when identifier and version both
    match, and then exactly that one record; with a sound connection it
    raises [ConcurrencyError] exactly when nothing matches, leaving the
    collection as it was; a broken connection gives [RetriableError]; the
    final assertion never fails. *)
Theorem delete_job_contract c j v :
  (∀ d, wf c → stored c j = Some d → field d "version" = v →
     ∃ i, c !! i = Some d ∧
          delete_job Up j v c = (Ok None, delete i c) ∧
          stored (delete i c) j = None ∧
          S (length (delete i c)) = length c ∧
          ∀ j', j' ≠ j → stored (delete i c) j' = stored c j') ∧
  ((delete_job Up j v c).1 = Raise ConcurrencyError
   ↔ ∀ d, d ∈ c → ¬ (field d "job_id" = j ∧ field d "version" = v)) ∧
  ((∀ d, d ∈ c → ¬ (field d "job_id" = j ∧ field d "version" = v)) →
   (delete_job Up j v c).2 = c) ∧
  (∀ b, (delete_job (Down b) j v c).1 = Raise RetriableError) ∧
  (∀ net, (delete_job net j v c).1 ≠ Raise AssertionError).
Proof.
  split; [|split; [|split; [|split]]].
  - intros d Hwf Hst Hv.
    destruct (first_match_stored _ _ _ _ Hwf Hst Hv) as (i & Hi & Hfm).
    apply stored_Some_elem in Hst as [_ Hj].
    exists i. split; [done|]. split; [by eapply delete_job_hit|].
    split; [by eapply stored_delete_eq; [apply Hwf|..]|].
    split.
    + rewrite length_delete by done. apply lookup_lt_Some in Hi. lia.
    + intros j' Hne. by eapply stored_delete_ne; [apply Hwf|..].
  - rewrite first_match_absent. split.
    + intros H. destruct (Server.first_match _ c) as [[i d]|] eqn:E; [|done].
      by rewrite (delete_job_hit _ _ _ _ _ E) in H.
    + intros H. by rewrite (delete_job_miss _ _ _ H).
  - intros H%first_match_absent. by rewrite (delete_job_miss _ _ _ H).
  - intros b. apply delete_job_Down.
  - intros [|b]; [|by rewrite delete_job_Down].
    destruct (Server.first_match [("job_id", Eq j); ("version", Eq v)] c)
      as [[i d]|] eqn:E.
    + by rewrite (delete_job_hit _ _ _ _ _ E).
    + by rewrite (delete_job_miss _ _ _ E).
Qed.

Lemma delete_job_contract_witness :
  ∃ i, one_idle !! i = Some (fresh_doc J1 build VNone) ∧
       delete_job Up J1 (VInt 0) one_idle = (Ok None, delete i one_idle) ∧
       stored (delete i one_idle) J1 = None ∧
       S (length (delete i one_idle)) = length one_idle ∧
       ∀ j', j' ≠ J1 → stored (delete i one_idle) j' = stored one_idle j'.
Proof.
  apply (delete_job_contract one_idle J1 (VInt 0)).
  - exact wf_one_idle.
  - vm_compute; reflexivity.
  - vm_compute; reflexivity.
Defined.

(** * C9: retrieval *)

Lemma find_one_id j c : (snd <$> Server.first_match [("job_id", Eq j)] c) = stored c j.
Proof.
  unfold stored, Server.first_match. f_equal.
  apply list_find_ext. intros d. apply matches_id.
Qed.

Lemma get_job_Up j c :
  get_job Up j c = match stored c j with
                   | Some d =>
                       match d !! "job_id" with
                       | Some j' => (Ok (Some (mkAveryJob j' (delete "job_id" d))), c)
                       | None => (Raise KeyError, c)
                       end
                   | None => (Raise AttributeError, c)
                   end.
Proof.
  unfold get_job. rewrite bind_run.
  unfold try_except, find_one, call, Server.find_one.
  rewrite find_one_id. destruct (stored c j) as [d|]; [|done].
  rewrite bind_run. unfold lift, _job_from_doc. by destruct (d !! "job_id").
Qed.

(** C9.  [get_job] returns the stored record when there is one, raises
    [RetriableError] on a broken connection, and when no record carries the
    identifier it raises (an [AttributeError]) instead of returning a job. *)
Theorem get_job_contract c j :
  (∀ d, wf c → stored c j = Some d →
     get_job Up j c = (Ok (Some (mkAveryJob j (delete "job_id" d))), c)) ∧
  (∀ b, get_job (Down b) j c = (Raise RetriableError, c)) ∧
  (stored c j = None → get_job Up j c = (Raise AttributeError, c)).
Proof.
  split; [|split].
  - intros d Hwf Hst. rewrite get_job_Up, Hst.
    destruct (wf_stored _ _ _ Hwf Hst) as [_ ->]. done.
  - by intros [].
  - intros Hnone. by rewrite get_job_Up, Hnone.
Qed.

Lemma get_job_contract_witness :
  get_job Up J1 one_idle
  = (Ok (Some (mkAveryJob J1 (delete "job_id" (fresh_doc J1 build VNone)))), one_idle)
  ∧ get_job Up J2 one_idle = (Raise AttributeError, one_idle).
Proof.
  split.
  - apply (get_job_contract one_idle J1).
    + exact wf_one_idle.
    + vm_compute; reflexivity.
  - apply (get_job_contract one_idle J2). vm_compute; reflexivity.
Defined.

(** * Acquisition *)

Lemma assignable_lease w now : assignable (lease w now).
Proof. split; reflexivity. Qed.

Lemma lease_status w now : lease w now !! "status" = Some LOCKED.
Proof. reflexivity. Qed.

Lemma lease_worker w now : lease w now !! "worker_id" = Some w.
Proof. reflexivity. Qed.

Lemma lease_heartbeat w now : lease w now !! "worker_heartbeat" = Some (VDate now).
Proof. reflexivity. Qed.

Lemma updated_nonempty kw d : updated kw d ≠ ∅.
Proof. unfold updated. apply insert_non_empty. Qed.

Lemma _job_from_doc_wf d : wf_doc d → _job_from_doc (Some d) = Ok (job_of d).
Proof.
  intros [[j Hj] _]. unfold _job_from_doc, job_of, field. by rewrite Hj.
Qed.

(** What one conditional update of the worker interface does, for every
    state of the connection. *)
Lemma _find_one_and_update_run net q kw c :
  wf c → assignable kw →
  _find_one_and_update net q (Update [("version", 1)] kw) c =
  match Server.first_match q c with
  | None => (match net with Up => Ok None | Down _ => Raise RetriableError end, c)
  | Some (i, d) =>
      match net with
      | Up => (Ok (Some (job_of (updated kw d))), <[i := updated kw d]> c)
      | Down false => (Raise RetriableError, c)
      | Down true => (Raise RetriableError, <[i := updated kw d]> c)
      end
  end.
Proof.
  intros Hwf Hkw. unfold _find_one_and_update. rewrite bind_run.
  unfold find_one_and_update.
  destruct (Server.first_match q c) as [[i d]|] eqn:E.
  - pose proof (server_update_hit _ _ _ _ _ Hwf Hkw E) as Hsrv.
    destruct net as [|b].
    + erewrite retriable_Up_Ok by done. cbv beta iota.
      rewrite bool_decide_eq_false_2 by apply updated_nonempty.
      rewrite bind_run. unfold lift. rewrite _job_from_doc_wf; [done|].
      apply wf_doc_updated; [done|]. apply first_match_Some in E as (Hi & _).
      by eapply wf_lookup.
    + rewrite retriable_Down, Hsrv. by destruct b.
  - pose proof (server_update_miss q (Update [("version", 1)] kw) c E) as Hsrv.
    destruct net as [|b].
    + by erewrite retriable_Up_Ok by done.
    + rewrite retriable_Down, Hsrv. by destruct b.
Qed.

Lemma _try_acquire_idle_job_eq net now tags w :
  _try_acquire_idle_job net now tags w
  = _find_one_and_update net [("tag", In tags); ("status", Eq IDLE)]
      (Update [("version", 1)] (lease w now)).
Proof. reflexivity. Qed.

Lemma _try_reacquire_locked_job_eq net now_q now_u tags w :
  _try_reacquire_locked_job net now_q now_u tags w
  = _find_one_and_update net
      [("tag", In tags); ("status", Eq LOCKED);
       ("worker_heartbeat", LtDate (now_q - HEARTBEAT_TIMEOUT))]
      (Update [("version", 1)] (lease w now_u)).
Proof. reflexivity. Qed.

(** A phase that returns a job has replaced one matching document. *)
Lemma _find_one_and_update_Some net q kw c job c' :
  wf c → assignable kw →
  _find_one_and_update net q (Update [("version", 1)] kw) c = (Ok (Some job), c') →
  ∃ i d, c !! i = Some d ∧ matches q d = true ∧
         job = job_of (updated kw d) ∧ c' = <[i := updated kw d]> c.
Proof.
  intros Hwf Hkw. rewrite _find_one_and_update_run by done.
  destruct (Server.first_match q c) as [[i d]|] eqn:E.
  - apply first_match_Some in E as (Hi & Hm & _).
    destruct net as [|[]]; intros [= <- <-]. eauto 6.
  - destruct net; intros [=].
Qed.

(** Whatever the connection, a phase leaves the collection alone or
    replaces one matching document. *)
Lemma _find_one_and_update_state net q kw c :
  wf c → assignable kw →
  let c' := (_find_one_and_update net q (Update [("version", 1)] kw) c).2 in
  c' = c ∨ ∃ i d, c !! i = Some d ∧ matches q d = true ∧ c' = <[i := updated kw d]> c.
Proof.
  intros Hwf Hkw. rewrite _find_one_and_update_run by done.
  destruct (Server.first_match q c) as [[i d]|] eqn:E.
  - apply first_match_Some in E as (Hi & Hm & _).
    destruct net as [|[]]; simpl; eauto 6.
  - by left.
Qed.

Lemma job_of_updated kw d :
  assignable kw →
  job_id (job_of (updated kw d)) = field d "job_id" ∧
  attrs (job_of (updated kw d)) !! "version" = Some (VInt (version_of d + 1)) ∧
  ∀ k x, kw !! k = Some x → attrs (job_of (updated kw d)) !! k = Some x.
Proof.
  intros Hkw. unfold job_of; simpl. split; [by apply field_updated_id|].
  split.
  - rewrite lookup_delete_ne by done. apply updated_version.
  - intros k x Hk. destruct Hkw as [Hv Hj].
    rewrite lookup_delete_ne by congruence. apply updated_set; congruence.
Qed.

Lemma acquire_job_run e tags w c :
  acquire_job e tags w c =
  match _try_acquire_idle_job (idle_net e) (idle_now e) tags w c with
  | (Ok None, c1) =>
      _try_reacquire_locked_job (stale_net e) (stale_now_q e) (stale_now_u e) tags w c1
  | r => r
  end.
Proof.
  unfold acquire_job. rewrite bind_run.
  destruct (_try_acquire_idle_job _ _ _ _ c) as [[[job|]|ex] c1]; try done.
  rewrite bind_run.
  by destruct (_try_reacquire_locked_job _ _ _ _ _ c1) as [[[job|]|ex] c2].
Qed.

(** * C3: the two phases of [acquire_job] *)

(** C3.  With a sound connection, when some record has its tag in the
    requested set and status [IDLE], [acquire_job] takes such a record,
    sets status [LOCKED], the worker, the heartbeat read from the clock and
    the version plus one, and returns it, whatever would befall the reclaim
    phase; when no such record exists the call is exactly the reclaim phase;
    and when neither phase finds a record it returns [None] and leaves the
    collection as it was. *)
Theorem acquire_job_two_phase e tags w c :
  wf c → idle_net e = Up →
  ((∃ x, x ∈ c ∧ field x "tag" ∈ tags ∧ field x "status" = IDLE) →
   ∃ i d, c !! i = Some d ∧ field d "tag" ∈ tags ∧ field d "status" = IDLE ∧
     let d' := updated (lease w (idle_now e)) d in
     acquire_job e tags w c = (Ok (Some (job_of d')), <[i := d']> c) ∧
     job_id (job_of d') = field d "job_id" ∧
     d' !! "status" = Some LOCKED ∧
     d' !! "worker_id" = Some w ∧
     d' !! "worker_heartbeat" = Some (VDate (idle_now e)) ∧
     d' !! "version" = Some (VInt (version_of d + 1))) ∧
  ((∀ x, x ∈ c → ¬ (field x "tag" ∈ tags ∧ field x "status" = IDLE)) →
   acquire_job e tags w c
   = _try_reacquire_locked_job (stale_net e) (stale_now_q e) (stale_now_u e) tags w c) ∧
  ((∀ x, x ∈ c → ¬ (field x "tag" ∈ tags ∧ field x "status" = IDLE)) →
   stale_net e = Up →
   (∀ x h, x ∈ c → field x "tag" ∈ tags → field x "status" = LOCKED →
           x !! "worker_heartbeat" = Some (VDate h) →
           stale_now_q e - HEARTBEAT_TIMEOUT ≤ h) →
   acquire_job e tags w c = (Ok None, c)).
Proof.
  intros Hwf Hup.
  pose proof (assignable_lease w (idle_now e)) as Hkw.
  assert ((∀ x, x ∈ c → ¬ (field x "tag" ∈ tags ∧ field x "status" = IDLE)) →
          _try_acquire_idle_job (idle_net e) (idle_now e) tags w c = (Ok None, c))
    as Hmiss.
  { intros Hno. rewrite _try_acquire_idle_job_eq, _find_one_and_update_run by done.
    assert (Server.first_match [("tag", In tags); ("status", Eq IDLE)] c = None) as ->.
    { apply first_match_None. intros x Hx Hm%matches_idle. by apply (Hno x). }
    by rewrite Hup. }
  split; [|split].
  - intros (x & Hx & Htag & Hst).
    destruct (first_match_is_Some [("tag", In tags); ("status", Eq IDLE)] c x)
      as [[i d] Hfm]; [done|by apply matches_idle|].
    pose proof Hfm as (Hi & [Ht Hs]%matches_idle & _)%first_match_Some.
    exists i, d. repeat (split; [done|]). simpl.
    split.
    { rewrite acquire_job_run, _try_acquire_idle_job_eq.
      rewrite _find_one_and_update_run, Hfm, Hup by done. done. }
    split; [by apply field_updated_id|].
    split; [by apply updated_set|].
    split; [by apply updated_set|].
    split; [by apply updated_set|apply updated_version].
  - intros Hno. by rewrite acquire_job_run, Hmiss.
  - intros Hno Hup2 Hfresh. rewrite acquire_job_run, Hmiss by done.
    rewrite _try_reacquire_locked_job_eq, _find_one_and_update_run;
      [|done|apply assignable_lease].
    rewrite Hup2.
    assert (Server.first_match
              [("tag", In tags); ("status", Eq LOCKED);
               ("worker_heartbeat", LtDate (stale_now_q e - HEARTBEAT_TIMEOUT))] c
            = None) as ->; [|done].
    apply first_match_None. intros x Hx (Ht & Hs & h & Hh & Hlt)%matches_stale.
    specialize (Hfresh x h Hx Ht Hs Hh). lia.
Qed.

Lemma acquire_job_two_phase_witness :
  (∃ i d, one_idle !! i = Some d ∧ field d "tag" ∈ [build] ∧ field d "status" = IDLE ∧
     let d' := updated (lease (VStr "w1") (idle_now (calm 1000))) d in
     acquire_job (calm 1000) [build] (VStr "w1") one_idle
     = (Ok (Some (job_of d')), <[i := d']> one_idle) ∧
     job_id (job_of d') = field d "job_id" ∧
     d' !! "status" = Some LOCKED ∧
     d' !! "worker_id" = Some (VStr "w1") ∧
     d' !! "worker_heartbeat" = Some (VDate (idle_now (calm 1000))) ∧
     d' !! "version" = Some (VInt (version_of d + 1))) ∧
  acquire_job (calm 1000) [build] (VStr "w2") one_locked = (Ok None, one_locked).
Proof.
  split.
  - apply (acquire_job_two_phase (calm 1000) [build] (VStr "w1") one_idle).
    + exact wf_one_idle.
    + reflexivity.
    + exists (fresh_doc J1 build VNone). split; [by left|].
      split; [by left|reflexivity].
  - apply (acquire_job_two_phase (calm 1000) [build] (VStr "w2") one_locked).
    + solve_wf.
    + reflexivity.
    + intros x ->%list_elem_of_singleton [_ H]. vm_compute in H. discriminate.
    + reflexivity.
    + intros x h ->%list_elem_of_singleton _ _ H. vm_compute in H.
      injection H as <-. vm_compute. discriminate.
Defined.

(** * One call, seen from one record *)

(** Replacing a document by its update, seen from the record of [j]. *)
Lemma bump_stored c i d1 kw j d :
  wf c → assignable kw → c !! i = Some d1 → stored c j = Some d →
  (field d1 "job_id" = j ∧ d1 = d
   ∧ stored (<[i := updated kw d1]> c) j = Some (updated kw d))
  ∨ (field d1 "job_id" ≠ j ∧ stored (<[i := updated kw d1]> c) j = Some d).
Proof.
  intros Hwf Hkw Hi Hst.
  destruct (decide (field d1 "job_id" = j)) as [Heq|Hne].
  - left. assert (d1 = d) as ->.
    { assert (stored c j = Some d1) by (by eapply stored_lookup; [apply Hwf|..]).
      congruence. }
    repeat split; [done|].
    eapply stored_insert_eq; [apply Hwf|done|done|].
    unfold has_id. by rewrite field_updated_id.
  - right. split; [done|]. rewrite <- Hst.
    eapply stored_insert_ne; [apply Hwf|done|reflexivity| |congruence].
    unfold has_id. by rewrite field_updated_id.
Qed.

(** What a call leaves of the record of [j]: it is still there, its version
    has not gone down, and [hit] tells whether it has gone up. *)
Definition kept (j : value) (d : doc) (c' : collection) (exact : Prop) (hit : bool) : Prop :=
  wf c' ∧ ∃ d', stored c' j = Some d' ∧ version_of d ≤ version_of d' ∧
    (exact → version_of d' = version_of d + (if hit then 1 else 0)).

Lemma kept_same c j d exact :
  wf c → stored c j = Some d → kept j d c exact false.
Proof. intros Hwf Hst. split; [done|]. exists d. split; [done|]. lia. Qed.

Lemma kept_bump c i d1 kw j d exact (hit : bool) :
  wf c → assignable kw → c !! i = Some d1 → stored c j = Some d →
  (exact → hit = bool_decide (field d1 "job_id" = j)) →
  kept j d (<[i := updated kw d1]> c) exact hit.
Proof.
  intros Hwf Hkw Hi Hst Hhit. split; [by apply wf_insert|].
  destruct (bump_stored _ _ _ _ _ _ Hwf Hkw Hi Hst) as [(Heq & -> & Hst')|[Hne Hst']].
  - exists (updated kw d). split; [done|]. rewrite version_of_updated.
    split; [lia|]. intros ->%Hhit. by rewrite bool_decide_eq_true_2.
  - exists d. split; [done|]. split; [lia|].
    intros ->%Hhit. rewrite bool_decide_eq_false_2 by done. lia.
Qed.

Lemma _find_one_and_update_kept net q kw c j d :
  wf c → assignable kw → stored c j = Some d →
  let r := _find_one_and_update net q (Update [("version", 1)] kw) c in
  kept j d r.2 (acked net)
    match r.1 with Ok (Some job) => bool_decide (job_id job = j) | _ => false end.
Proof.
  intros Hwf Hkw Hst. rewrite _find_one_and_update_run by done.
  destruct (Server.first_match q c) as [[i d1]|] eqn:E.
  - apply first_match_Some in E as (Hi & _ & _).
    destruct net as [|[]]; simpl.
    + eapply kept_bump; try done. intros _.
      by rewrite field_updated_id.
    + eapply kept_bump; done.
    + by apply kept_same.
  - destruct net; by apply kept_same.
Qed.

(** [_update_job], for every state of the connection. *)
Lemma _update_job_run net j v kw c :
  wf c → assignable kw →
  _update_job net j v kw c =
  match Server.first_match [("job_id", Eq j); ("version", Eq v)] c with
  | None =>
      (match net with Up => Raise ConcurrencyError | Down _ => Raise RetriableError end, c)
  | Some (i, d) =>
      match net with
      | Up => (Ok None, <[i := updated kw d]> c)
      | Down false => (Raise RetriableError, c)
      | Down true => (Raise RetriableError, <[i := updated kw d]> c)
      end
  end.
Proof.
  intros Hwf Hkw.
  destruct (Server.first_match _ c) as [[i d]|] eqn:E.
  - destruct net as [|b]; [by eapply _update_job_hit|].
    unfold _update_job. rewrite bind_run. unfold find_one_and_update.
    rewrite retriable_Down, (server_update_hit _ _ _ _ _ Hwf Hkw E). by destruct b.
  - destruct net as [|b]; [by apply _update_job_miss|].
    unfold _update_job. rewrite bind_run. unfold find_one_and_update.
    rewrite retriable_Down, (server_update_miss _ _ _ E). by destruct b.
Qed.

Lemma _update_job_kept net j' v kw c j d :
  wf c → assignable kw → stored c j = Some d →
  let r := _update_job net j' v kw c in
  kept j d r.2 (acked net)
    match r.1 with Ok _ => bool_decide (j' = j) | _ => false end.
Proof.
  intros Hwf Hkw Hst. rewrite _update_job_run by done.
  destruct (Server.first_match _ c) as [[i d1]|] eqn:E.
  - apply first_match_Some in E as (Hi & [Hid _]%matches_id_version & _).
    destruct net as [|[]]; simpl.
    + eapply kept_bump; try done. intros _. by subst j'.
    + eapply kept_bump; done.
    + by apply kept_same.
  - destruct net; by apply kept_same.
Qed.

(** The three callers of [_update_job] return [None] where it does. *)
Lemma then_None (m : M (option AveryJob)) c :
  (m ≫= λ _, mret (None : option AveryJob)) c
  = (match (m c).1 with Ok _ => Ok (None : option AveryJob) | Raise e => Raise e end,
     (m c).2).
Proof. rewrite bind_run. by destruct (m c) as [[?|?] ?]. Qed.

Lemma create_job_state net j tag args c :
  (create_job net j tag args c).2 = c
  ∨ (stored c j = None ∧ (create_job net j tag args c).2 = c ++ [fresh_doc j tag args]).
Proof.
  assert (Server.dup_key (fresh_doc j tag args) c = false ↔ stored c j = None) as Hd.
  { by rewrite dup_key_false, field_fresh_doc. }
  destruct net as [|[|]]; [| |by left].
  - destruct (stored c j) as [d|] eqn:E.
    + left. by rewrite create_job_dup by (by rewrite E).
    + right. by rewrite create_job_fresh.
  - unfold create_job. fold (fresh_doc j tag args). rewrite bind_run.
    unfold try_except, insert_one, call, Server.insert_one.
    destruct (Server.dup_key _ c) eqn:Hk; [by left|].
    right. split; [by apply Hd|done].
Qed.

Lemma delete_job_state net j v c :
  (delete_job net j v c).2 = c
  ∨ ∃ i d, c !! i = Some d ∧ has_id j d ∧ (delete_job net j v c).2 = delete i c.
Proof.
  destruct net as [|[|]]; [| |by left].
  - destruct (Server.first_match [("job_id", Eq j); ("version", Eq v)] c)
      as [[i d]|] eqn:E.
    + pose proof E as (Hi & [Hid _]%matches_id_version & _)%first_match_Some.
      right. exists i, d. by rewrite (delete_job_hit _ _ _ _ _ E).
    + left. by rewrite (delete_job_miss _ _ _ E).
  - unfold delete_job. rewrite bind_run.
    unfold try_except, delete_one, call, Server.delete_one.
    destruct (Server.first_match [("job_id", Eq j); ("version", Eq v)] c)
      as [[i d]|] eqn:E; [|by left].
    pose proof E as (Hi & [Hid _]%matches_id_version & _)%first_match_Some.
    right. by exists i, d.
Qed.

Lemma get_job_state net j c : (get_job net j c).2 = c.
Proof.
  destruct net as [|[|]]; [|done..]. rewrite get_job_Up.
  destruct (stored c j) as [d|]; [|done]. by destruct (d !! "job_id").
Qed.

Lemma acquire_job_kept e tags w c j d :
  wf c → stored c j = Some d →
  let r := acquire_job e tags w c in
  kept j d r.2 (acked (idle_net e) ∧ acked (stale_net e))
    match r.1 with Ok (Some job) => bool_decide (job_id job = j) | _ => false end.
Proof.
  intros Hwf Hst.
  pose proof (_find_one_and_update_kept (idle_net e)
                [("tag", In tags); ("status", Eq IDLE)] (lease w (idle_now e))
                c j d Hwf (assignable_lease _ _) Hst) as H1.
  rewrite acquire_job_run, _try_acquire_idle_job_eq. simpl in H1.
  destruct (_find_one_and_update (idle_net e) _ _ c) as [[[job|]|ex] c1] eqn:E1;
    simpl in *.
  - destruct H1 as (Hwf1 & d' & ? & ? & Hx). split; [done|].
    exists d'. repeat split; try done. intros [? _]. by apply Hx.
  - destruct H1 as (Hwf1 & d' & Hst1 & Hle & Hx).
    pose proof (_find_one_and_update_kept (stale_net e)
                  [("tag", In tags); ("status", Eq LOCKED);
                   ("worker_heartbeat", LtDate (stale_now_q e - HEARTBEAT_TIMEOUT))]
                  (lease w (stale_now_u e))
                  c1 j d' Hwf1 (assignable_lease _ _) Hst1) as H2.
    rewrite _try_reacquire_locked_job_eq. simpl in H2.
    destruct H2 as (Hwf2 & d'' & Hst2 & Hle2 & Hx2). split; [done|].
    exists d''. split; [done|]. split; [lia|].
    intros [Ha Hb]. rewrite (Hx2 Hb), (Hx Ha). lia.
  - destruct H1 as (Hwf1 & d' & ? & ? & Hx). split; [done|].
    exists d'. repeat split; try done. intros [? _]. by apply Hx.
Qed.

(** Every call but a deletion of [j] keeps the record of [j]. *)
Lemma perform_kept r c j d :
  wf c → stored c j = Some d → ¬ deletes j r →
  kept j d (perform r c).2 (lossless r) (mutates j r (perform r c).1).
Proof.
  intros Hwf Hst Hdel. destruct r as [net j' tag args|net j'|net j' v|net j' v
                                     |e tags w|net now j' v|net j' v s x]; simpl.
  - destruct (create_job_state net j' tag args c) as [->|[Hnone ->]].
    + by apply kept_same.
    + split; [apply wf_app; [done|apply wf_fresh_doc|by rewrite field_fresh_doc]|].
      exists d. rewrite stored_app_ne; [|rewrite field_fresh_doc; congruence].
      split; [done|]. lia.
  - rewrite get_job_state. by apply kept_same.
  - unfold cancel_job. rewrite then_None. simpl.
    pose proof (_update_job_kept net j' v {[ "status" := CANCELLED ]} c j d Hwf) as H.
    simpl in H. destruct (_update_job net j' v _ c) as [[o|ex] c']; apply H; try done.
  - simpl in Hdel. destruct (delete_job_state net j' v c) as [->|(i & d1 & Hi & Hid & ->)].
    + by apply kept_same.
    + split; [by apply wf_delete|]. exists d.
      rewrite (stored_delete_ne c i j' j d1); [|apply Hwf|done|done|congruence].
      split; [done|]. lia.
  - by apply acquire_job_kept.
  - unfold heartbeat_job. rewrite then_None. simpl.
    pose proof (_update_job_kept net j' v {[ "worker_heartbeat" := VDate now ]}
                  c j d Hwf) as H.
    simpl in H. destruct (_update_job net j' v _ c) as [[o|ex] c']; apply H; try done.
  - unfold finalize_job. rewrite then_None. simpl.
    pose proof (_update_job_kept net j' v
                  {[ "status" := s; "worker_exception" := x ]} c j d Hwf) as H.
    simpl in H. destruct (_update_job net j' v _ c) as [[o|ex] c']; apply H; try done.
Qed.

(** * C4: the stale-lease reclaim *)

Lemma wf_one_locked : wf one_locked.
Proof. solve_wf. Qed.

(** C4.  A job returned by the reclaim phase comes from a stored record
    whose tag is in the requested set, whose status is [LOCKED] and whose
    heartbeat is older than the clock reading of the filter minus ten
    minutes; the record is replaced by its update, which carries the new
    worker, the heartbeat read for the update and the version plus one; and
    no record whose heartbeat is within the timeout is the one returned. *)
Theorem reclaim_selectivity net now_q now_u tags w c job c' :
  wf c →
  _try_reacquire_locked_job net now_q now_u tags w c = (Ok (Some job), c') →
  ∃ i d h,
    c !! i = Some d ∧ field d "tag" ∈ tags ∧ field d "status" = LOCKED ∧
    d !! "worker_heartbeat" = Some (VDate h) ∧ h < now_q - 10 * 60 * 1000 ∧
    job = job_of (updated (lease w now_u) d) ∧
    c' = <[i := updated (lease w now_u) d]> c ∧
    job_id job = field d "job_id" ∧
    attrs job !! "worker_id" = Some w ∧
    attrs job !! "worker_heartbeat" = Some (VDate now_u) ∧
    attrs job !! "status" = Some LOCKED ∧
    attrs job !! "version" = Some (VInt (version_of d + 1)) ∧
    stored c' (job_id job) = Some (updated (lease w now_u) d) ∧
    (∀ x hx, x ∈ c → x !! "worker_heartbeat" = Some (VDate hx) →
             now_q - 10 * 60 * 1000 ≤ hx → field x "job_id" ≠ job_id job).
Proof.
  intros Hwf Hrun. rewrite _try_reacquire_locked_job_eq in Hrun.
  pose proof (assignable_lease w now_u) as Hkw.
  apply _find_one_and_update_Some in Hrun
    as (i & d & Hi & (Ht & Hs & h & Hh & Hlt)%matches_stale & -> & ->); [|done..].
  destruct (job_of_updated (lease w now_u) d Hkw) as (Hid & Hver & Hset).
  exists i, d, h. split_and!; try done; try (by apply Hset).
  - rewrite Hid. eapply stored_insert_eq; [apply Hwf|done|reflexivity|].
    unfold has_id. by rewrite field_updated_id.
  - intros x hx [k Hk]%list_elem_of_lookup_1 Hhx Hyoung Heq.
    assert (k = i) as ->.
    { eapply unique_index; [apply Hwf|done..|]. congruence. }
    assert (x = d) as -> by congruence.
    assert (hx = h) as -> by congruence.
    unfold HEARTBEAT_TIMEOUT in Hlt. lia.
Qed.

Lemma reclaim_selectivity_witness :
  ∃ i d h,
    one_locked !! i = Some d ∧ field d "tag" ∈ [build] ∧ field d "status" = LOCKED ∧
    d !! "worker_heartbeat" = Some (VDate h) ∧ h < 700000 - 10 * 60 * 1000 ∧
    job_of relocked = job_of (updated (lease (VStr "w2") 700001) d) ∧
    [relocked] = <[i := updated (lease (VStr "w2") 700001) d]> one_locked ∧
    job_id (job_of relocked) = field d "job_id" ∧
    attrs (job_of relocked) !! "worker_id" = Some (VStr "w2") ∧
    attrs (job_of relocked) !! "worker_heartbeat" = Some (VDate 700001) ∧
    attrs (job_of relocked) !! "status" = Some LOCKED ∧
    attrs (job_of relocked) !! "version" = Some (VInt (version_of d + 1)) ∧
    stored [relocked] (job_id (job_of relocked))
    = Some (updated (lease (VStr "w2") 700001) d) ∧
    (∀ x hx, x ∈ one_locked → x !! "worker_heartbeat" = Some (VDate hx) →
             700000 - 10 * 60 * 1000 ≤ hx →
             field x "job_id" ≠ job_id (job_of relocked)).
Proof.
  apply (reclaim_selectivity Up 700000 700001 [build] (VStr "w2") one_locked).
  - exact wf_one_locked.
  - vm_compute; reflexivity.
Defined.

(** * C6: sink states *)

(** A phase does not touch a record that its filter rejects. *)
Lemma phase_skips net q kw c j d :
  wf c → assignable kw → stored c j = Some d → matches q d ≠ true →
  let r := _find_one_and_update net q (Update [("version", 1)] kw) c in
  wf r.2 ∧ stored r.2 j = Some d ∧ ∀ job, r.1 = Ok (Some job) → job_id job ≠ j.
Proof.
  intros Hwf Hkw Hst Hno. rewrite _find_one_and_update_run by done.
  destruct (Server.first_match q c) as [[i d1]|] eqn:E.
  - apply first_match_Some in E as (Hi & Hm & _).
    destruct (bump_stored _ _ _ _ _ _ Hwf Hkw Hi Hst) as [(_ & -> & _)|[Hne Hst']];
      [done|].
    pose proof (wf_insert _ _ _ _ Hwf Hi Hkw) as Hwf'.
    destruct net as [|[|]]; simpl; (split; [done|]); (split; [done|]); try done.
    intros job [= <-]. simpl. by rewrite field_updated_id.
  - destruct net; simpl; (split; [done|]); (split; [done|]); done.
Qed.

Lemma rejects_idle tags d :
  field d "status" ≠ IDLE → matches [("tag", In tags); ("status", Eq IDLE)] d ≠ true.
Proof. intros Hs [_ ?]%matches_idle. done. Qed.

Lemma rejects_stale tags cutoff d :
  field d "status" ≠ LOCKED →
  matches [("tag", In tags); ("status", Eq LOCKED);
           ("worker_heartbeat", LtDate cutoff)] d ≠ true.
Proof. intros Hs (_ & ? & _)%matches_stale. done. Qed.

(** Both phases in a row. *)
Lemma acquire_job_skips e tags w c j d :
  wf c → stored c j = Some d →
  matches [("tag", In tags); ("status", Eq IDLE)] d ≠ true →
  matches [("tag", In tags); ("status", Eq LOCKED);
           ("worker_heartbeat", LtDate (stale_now_q e - HEARTBEAT_TIMEOUT))] d ≠ true →
  let r := acquire_job e tags w c in
  wf r.2 ∧ stored r.2 j = Some d ∧ ∀ job, r.1 = Ok (Some job) → job_id job ≠ j.
Proof.
  intros Hwf Hst Hidle Hstale.
  rewrite acquire_job_run, _try_acquire_idle_job_eq.
  destruct (phase_skips (idle_net e) _ _ c j d Hwf (assignable_lease w (idle_now e))
              Hst Hidle) as (Hwf1 & Hst1 & H1).
  destruct (_find_one_and_update (idle_net e) _ _ c) as [[[job1|]|ex] c1];
    simpl in Hwf1, Hst1, H1 |- *; try done.
  rewrite _try_reacquire_locked_job_eq.
  apply (phase_skips (stale_net e) _ _ c1 j d Hwf1
           (assignable_lease w (stale_now_u e)) Hst1 Hstale).
Qed.

(** C6, amended.  A record whose status is [CANCELLED], or any status other
    than [IDLE] and [LOCKED], is selected by neither phase of acquisition,
    which leaves it as it is; and no call but a deletion of that job removes
    the record. *)
Theorem sink_states e tags w c j d :
  wf c → stored c j = Some d →
  field d "status" = CANCELLED
  ∨ (field d "status" ≠ IDLE ∧ field d "status" ≠ LOCKED) →
  (∀ net now job c',
     _try_acquire_idle_job net now tags w c = (Ok (Some job), c') → job_id job ≠ j) ∧
  (∀ net now_q now_u job c',
     _try_reacquire_locked_job net now_q now_u tags w c = (Ok (Some job), c') →
     job_id job ≠ j) ∧
  (∀ job, (acquire_job e tags w c).1 = Ok (Some job) → job_id job ≠ j) ∧
  stored (acquire_job e tags w c).2 j = Some d ∧
  (∀ r, ¬ deletes j r → is_Some (stored (perform r c).2 j)).
Proof.
  intros Hwf Hst Hsink.
  assert (field d "status" ≠ IDLE ∧ field d "status" ≠ LOCKED) as [Hni Hnl].
  { destruct Hsink as [->|?]; [|done]. by split. }
  split_and!.
  - intros net now job c' Hrun. rewrite _try_acquire_idle_job_eq in Hrun.
    destruct (phase_skips net _ _ c j d Hwf (assignable_lease w now) Hst
                (rejects_idle tags d Hni)) as (_ & _ & H).
    apply H. by rewrite Hrun.
  - intros net now_q now_u job c' Hrun. rewrite _try_reacquire_locked_job_eq in Hrun.
    destruct (phase_skips net _ _ c j d Hwf (assignable_lease w now_u) Hst
                (rejects_stale tags (now_q - HEARTBEAT_TIMEOUT) d Hnl)) as (_ & _ & H).
    apply H. by rewrite Hrun.
  - apply (acquire_job_skips e tags w c j d Hwf Hst);
      [by apply rejects_idle|by apply rejects_stale].
  - apply (acquire_job_skips e tags w c j d Hwf Hst);
      [by apply rejects_idle|by apply rejects_stale].
  - intros r Hdel.
    destruct (perform_kept r c j d Hwf Hst Hdel) as (_ & d' & Hd' & _). by exists d'.
Qed.

Lemma sink_states_witness :
  (∀ job, (acquire_job (calm 5000) [build] (VStr "w1") one_cancelled).1 = Ok (Some job) →
          job_id job ≠ J1) ∧
  stored (acquire_job (calm 5000) [build] (VStr "w1") one_cancelled).2 J1
  = Some (updated {[ "status" := CANCELLED ]} (fresh_doc J1 build VNone)).
Proof.
  split;
    apply (sink_states (calm 5000) [build] (VStr "w1") one_cancelled J1
             (updated {[ "status" := CANCELLED ]} (fresh_doc J1 build VNone)));
    try solve_wf; try (vm_compute; reflexivity); left; vm_compute; reflexivity.
Defined.

(** C6 as stated fails: [finalize_job] accepts any status, [IDLE] among
    them, and a job finalized with it is claimed again. *)
Lemma finalized_status_reselected :
  (finalize_job Up J1 (VInt 1) IDLE VNone one_locked).1 = Ok None ∧
  (∃ d, stored finalized_as_idle J1 = Some d ∧ d !! "status" = Some IDLE
        ∧ d !! "version" = Some (VInt 2)) ∧
  ∃ job, (acquire_job (calm 5000) [build] (VStr "w2") finalized_as_idle).1
         = Ok (Some job) ∧ job_id job = J1.
Proof.
  split; [vm_compute; reflexivity|]. split.
  - eexists. split; [vm_compute; reflexivity|]. split; vm_compute; reflexivity.
  - eexists. split; [vm_compute; reflexivity|]. vm_compute; reflexivity.
Qed.

(** * C5: the version counts the mutations *)

Lemma run_app rs1 rs2 c :
  run (rs1 ++ rs2) c
  = ((run rs1 c).1 ++ (run rs2 (run rs1 c).2).1, (run rs2 (run rs1 c).2).2).
Proof.
  revert c. induction rs1 as [|r rs1 IH]; intros c; simpl.
  - by destruct (run rs2 c).
  - by rewrite IH.
Qed.

Lemma successes_nonneg j rs os : 0 ≤ successes j rs os.
Proof.
  revert os. induction rs as [|r rs IH]; intros [|o os]; simpl; try done.
  specialize (IH os). destruct (mutates j r o); lia.
Qed.

Lemma same_tracks c j d (hit : bool) exact :
  wf c → stored c j = Some d → hit = false → tracks j d c hit exact.
Proof.
  intros Hwf Hst ->. split; [done|]. exists d. split; [done|].
  split; [by left|]. split; [done|]. intros _. lia.
Qed.

Lemma bump_tracks c i d1 kw j d (hit : bool) (exact : Prop) :
  wf c → assignable kw → c !! i = Some d1 → stored c j = Some d →
  (hit = true → field d1 "job_id" = j) →
  (exact → field d1 "job_id" = j → hit = true) →
  tracks j d (<[i := updated kw d1]> c) hit exact.
Proof.
  intros Hwf Hkw Hi Hst Hhit Hexact. split; [by apply wf_insert|].
  destruct (bump_stored _ _ _ _ _ _ Hwf Hkw Hi Hst) as [(Heq & -> & Hst')|[Hne Hst']].
  - exists (updated kw d). split; [done|]. rewrite version_of_updated.
    split; [by right|]. split; [done|]. intros Hx. by rewrite (Hexact Hx Heq).
  - exists d. split; [done|]. split; [by left|].
    split; [intros Hh; by destruct (Hne (Hhit Hh))|].
    intros _. destruct hit; [by destruct (Hne (Hhit eq_refl))|lia].
Qed.

Lemma _update_job_tracks net j' v kw c j d :
  wf c → assignable kw → stored c j = Some d →
  let r := _update_job net j' v kw c in
  tracks j d r.2 match r.1 with Ok _ => bool_decide (j' = j) | Raise _ => false end
    (acked net).
Proof.
  intros Hwf Hkw Hst. rewrite _update_job_run by done.
  destruct (Server.first_match _ c) as [[i d1]|] eqn:E.
  - apply first_match_Some in E as (Hi & [Hid _]%matches_id_version & _).
    destruct net as [|[|]]; simpl.
    + eapply bump_tracks; try done.
      * intros ?%bool_decide_eq_true. congruence.
      * intros _ ?. apply bool_decide_eq_true. congruence.
    + eapply bump_tracks; done.
    + by apply same_tracks.
  - destruct net; by apply same_tracks.
Qed.

Lemma _find_one_and_update_tracks net q kw c j d :
  wf c → assignable kw → stored c j = Some d →
  let r := _find_one_and_update net q (Update [("version", 1)] kw) c in
  tracks j d r.2
    match r.1 with Ok (Some job) => bool_decide (job_id job = j) | _ => false end
    (acked net).
Proof.
  intros Hwf Hkw Hst. rewrite _find_one_and_update_run by done.
  destruct (Server.first_match q c) as [[i d1]|] eqn:E.
  - apply first_match_Some in E as (Hi & _ & _).
    destruct net as [|[|]]; simpl.
    + eapply bump_tracks; try done.
      * intros H%bool_decide_eq_true. by rewrite field_updated_id in H.
      * intros _ H. apply bool_decide_eq_true. by rewrite field_updated_id.
    + eapply bump_tracks; done.
    + by apply same_tracks.
  - destruct net; by apply same_tracks.
Qed.

Lemma tracks_weaken j d c (hit : bool) (exact exact' : Prop) :
  (exact' → exact) → tracks j d c hit exact → tracks j d c hit exact'.
Proof.
  intros Himp (Hwf & d' & Hst & Hstep & Hhit & Hx).
  split; [done|]. exists d'. split_and!; try done. intros H. by apply Hx, Himp.
Qed.

Lemma acquire_job_tracks e tags w c j d :
  wf c → stored c j = Some d →
  let r := acquire_job e tags w c in
  tracks j d r.2
    match r.1 with Ok (Some job) => bool_decide (job_id job = j) | _ => false end
    (acked (idle_net e) ∧ acked (stale_net e)).
Proof.
  intros Hwf Hst.
  pose proof (_find_one_and_update_tracks (idle_net e)
                [("tag", In tags); ("status", Eq IDLE)] (lease w (idle_now e))
                c j d Hwf (assignable_lease _ _) Hst) as H1.
  pose proof (_find_one_and_update_run (idle_net e)
                [("tag", In tags); ("status", Eq IDLE)] (lease w (idle_now e))
                c Hwf (assignable_lease _ _)) as Hrun.
  rewrite acquire_job_run, _try_acquire_idle_job_eq. simpl in H1.
  destruct (_find_one_and_update (idle_net e) _ _ c) as [[[job|]|ex] c1] eqn:E1;
    simpl in H1 |- *.
  - eapply tracks_weaken; [|exact H1]. tauto.
  - assert (c1 = c) as ->.
    { destruct (Server.first_match _ c) as [[i d1]|]; destruct (idle_net e) as [|[|]];
        by injection Hrun. }
    rewrite _try_reacquire_locked_job_eq.
    eapply tracks_weaken;
      [|apply (_find_one_and_update_tracks (stale_net e) _ (lease w (stale_now_u e))
                 c j d Hwf (assignable_lease _ _) Hst)].
    tauto.
  - eapply tracks_weaken; [|exact H1]. tauto.
Qed.

(** One call, seen from a record that is still there after it. *)
Lemma perform_tracks r c j d :
  wf c → stored c j = Some d → is_Some (stored (perform r c).2 j) →
  tracks j d (perform r c).2 (mutates j r (perform r c).1) (lossless r).
Proof.
  intros Hwf Hst Hstill.
  destruct r as [net j' tag args|net j'|net j' v|net j' v|e tags w|net now j' v
                |net j' v s x]; simpl in Hstill |- *.
  - destruct (create_job_state net j' tag args c) as [->|[Hnone ->]].
    + by apply same_tracks.
    + split; [apply wf_app; [done|apply wf_fresh_doc|by rewrite field_fresh_doc]|].
      exists d. rewrite stored_app_ne; [|rewrite field_fresh_doc; congruence].
      split; [done|]. split; [by left|]. split; [done|]. intros _. lia.
  - rewrite get_job_state. by apply same_tracks.
  - unfold cancel_job. rewrite then_None. simpl.
    pose proof (_update_job_tracks net j' v {[ "status" := CANCELLED ]} c j d Hwf) as H.
    simpl in H. destruct (_update_job net j' v _ c) as [[o|ex] c']; apply H; done.
  - destruct (delete_job_state net j' v c) as [E|(i & d1 & Hi & Hid & E)];
      rewrite E in Hstill |- *.
    + by apply same_tracks.
    + destruct (decide (j' = j)) as [->|Hne].
      * rewrite (stored_delete_eq c i j d1) in Hstill; [|apply Hwf|done..].
        by destruct Hstill.
      * split; [by apply wf_delete|]. exists d.
        rewrite (stored_delete_ne c i j' j d1); [|apply Hwf|done|done|congruence].
        split; [done|]. split; [by left|]. split; [done|]. intros _. lia.
  - by apply acquire_job_tracks.
  - unfold heartbeat_job. rewrite then_None. simpl.
    pose proof (_update_job_tracks net j' v {[ "worker_heartbeat" := VDate now ]}
                  c j d Hwf) as H.
    simpl in H. destruct (_update_job net j' v _ c) as [[o|ex] c']; apply H; done.
  - unfold finalize_job. rewrite then_None. simpl.
    pose proof (_update_job_tracks net j' v
                  {[ "status" := s; "worker_exception" := x ]} c j d Hwf) as H.
    simpl in H. destruct (_update_job net j' v _ c) as [[o|ex] c']; apply H; done.
Qed.

Lemma present_head j rs c : present j rs c → is_Some (stored c j).
Proof. destruct rs; by intros [H _]. Qed.

Lemma present_app j rs1 rs2 c :
  present j (rs1 ++ rs2) c → present j rs1 c ∧ present j rs2 (run rs1 c).2.
Proof.
  revert c. induction rs1 as [|r rs1 IH]; intros c; simpl.
  - intros H. split; [|done]. split; [by eapply present_head|done].
  - intros [Hc H]. destruct (IH _ H) as [H1 H2]. done.
Qed.

(** A history during which the record of [j] is there throughout: its
    version goes up by at least the number of successful mutations, and by
    exactly that number when no acknowledgement is lost. *)
Lemma run_tracks rs c j d :
  wf c → stored c j = Some d → present j rs c →
  wf (run rs c).2 ∧
  ∃ d', stored (run rs c).2 j = Some d' ∧
        version_of d + successes j rs (run rs c).1 ≤ version_of d' ∧
        (Forall lossless rs →
         version_of d' = version_of d + successes j rs (run rs c).1).
Proof.
  revert c d. induction rs as [|r rs IH]; intros c d Hwf Hst Hpres; simpl.
  - split; [done|]. exists d. split; [done|]. split; [lia|]. intros _. lia.
  - destruct Hpres as [_ Hpres].
    pose proof (present_head _ _ _ Hpres) as Hstill.
    destruct (perform_tracks r c j d Hwf Hst Hstill)
      as (Hwf1 & d1 & Hst1 & Hstep & Hhit & Hx1).
    destruct (IH _ _ Hwf1 Hst1 Hpres) as (Hwf2 & d2 & Hst2 & Hle2 & Hx2).
    split; [done|]. exists d2. split; [done|]. split.
    + destruct (mutates j r (perform r c).1); [rewrite Hhit in Hle2 by done|]; lia.
    + intros [Hl Hls]%Forall_cons. rewrite (Hx2 Hls), (Hx1 Hl). lia.
Qed.

(** C5, amended.  A job is created with version 0.  While its record is
    there, every call leaves the version as it is or raises it by exactly
    one, and a successful mutation (cancel, heartbeat, finalize, idle claim,
    reclaim) raises it by exactly one; so the version never goes down, after
    N successful mutations it is at least N, and it is exactly N when no
    acknowledgement is lost. *)
Theorem version_counts c j tag args rs :
  wf c → stored c j = None →
  present j rs (create_job Up j tag args c).2 →
  let c0 := (create_job Up j tag args c).2 in
  (∃ d0, stored c0 j = Some d0 ∧ d0 !! "version" = Some (VInt 0)) ∧
  (∃ d n, stored (run rs c0).2 j = Some d ∧ d !! "version" = Some (VInt n) ∧
          successes j rs (run rs c0).1 ≤ n ∧
          (Forall lossless rs → n = successes j rs (run rs c0).1)) ∧
  (∀ rs1 rs2, rs = rs1 ++ rs2 →
     ∃ d1 d2, stored (run rs1 c0).2 j = Some d1 ∧ stored (run rs c0).2 j = Some d2
              ∧ version_of d1 ≤ version_of d2) ∧
  (∀ r c1 d1, wf c1 → stored c1 j = Some d1 →
     is_Some (stored (perform r c1).2 j) →
     ∃ d2 n2, stored (perform r c1).2 j = Some d2 ∧
       d2 !! "version" = Some (VInt n2) ∧
       (n2 = version_of d1 ∨ n2 = version_of d1 + 1) ∧
       (mutates j r (perform r c1).1 = true → n2 = version_of d1 + 1)).
Proof.
  intros Hwf Hnone Hpres c0. subst c0. revert Hpres.
  rewrite (create_job_fresh _ _ _ _ Hnone). simpl.
  assert (wf (c ++ [fresh_doc j tag args])) as Hwf0.
  { apply wf_app; [done|apply wf_fresh_doc|]. by rewrite field_fresh_doc. }
  assert (stored (c ++ [fresh_doc j tag args]) j = Some (fresh_doc j tag args))
    as Hst0.
  { rewrite <- (field_fresh_doc j tag args) at 2.
    apply stored_app_eq; [apply Hwf|]. by rewrite field_fresh_doc. }
  assert (version_of (fresh_doc j tag args) = 0) as Hv0 by reflexivity.
  revert Hwf0 Hst0 Hv0.
  generalize (fresh_doc j tag args) as d0. intros d0.
  generalize (c ++ [d0]) as c0. intros c0 Hwf0 Hst0 Hv0 Hpres.
  split_and!.
  - exists d0. split; [done|].
    destruct (wf_stored _ _ _ Hwf0 Hst0) as [[Hver _]%wf_doc_version _].
    by rewrite Hver, Hv0.
  - destruct (run_tracks rs c0 j d0 Hwf0 Hst0 Hpres) as (Hwf1 & d & Hst & Hle & Hx).
    destruct (wf_stored _ _ _ Hwf1 Hst) as [[Hver _]%wf_doc_version _].
    exists d, (version_of d). split; [done|]. split; [done|]. split; [lia|].
    intros Hl. rewrite (Hx Hl). lia.
  - intros rs1 rs2 ->. apply present_app in Hpres as [Hp1 Hp2].
    destruct (run_tracks rs1 c0 j d0 Hwf0 Hst0 Hp1) as (Hwf1 & d1 & Hst1 & _ & _).
    destruct (run_tracks rs2 _ j d1 Hwf1 Hst1 Hp2) as (Hwf2 & d2 & Hst2 & Hle & _).
    exists d1, d2. rewrite run_app. simpl. split; [done|]. split; [done|].
    pose proof (successes_nonneg j rs2 (run rs2 (run rs1 c0).2).1). lia.
  - intros r c1 d1 Hwf1 Hst1 Hstill.
    destruct (perform_tracks r c1 j d1 Hwf1 Hst1 Hstill)
      as (Hwf2 & d2 & Hst2 & Hstep & Hhit & _).
    destruct (wf_stored _ _ _ Hwf2 Hst2) as [[Hver _]%wf_doc_version _].
    exists d2, (version_of d2). done.
Qed.

Lemma version_counts_witness :
  let c0 := (create_job Up J1 build VNone []).2 in
  (∃ d0, stored c0 J1 = Some d0 ∧ d0 !! "version" = Some (VInt 0)) ∧
  (∃ d n, stored (run eventful c0).2 J1 = Some d ∧ d !! "version" = Some (VInt n) ∧
          successes J1 eventful (run eventful c0).1 ≤ n ∧
          (Forall lossless eventful → n = successes J1 eventful (run eventful c0).1)) ∧
  (∀ rs1 rs2, eventful = rs1 ++ rs2 →
     ∃ d1 d2, stored (run rs1 c0).2 J1 = Some d1 ∧
              stored (run eventful c0).2 J1 = Some d2
              ∧ version_of d1 ≤ version_of d2) ∧
  (∀ r c1 d1, wf c1 → stored c1 J1 = Some d1 →
     is_Some (stored (perform r c1).2 J1) →
     ∃ d2 n2, stored (perform r c1).2 J1 = Some d2 ∧
       d2 !! "version" = Some (VInt n2) ∧
       (n2 = version_of d1 ∨ n2 = version_of d1 + 1) ∧
       (mutates J1 r (perform r c1).1 = true → n2 = version_of d1 + 1)).
Proof.
  apply (version_counts [] J1 build VNone eventful).
  - exact wf_nil.
  - reflexivity.
  - cbn [present].
    repeat (split; [apply (bool_decide_unpack _); vm_compute; exact I|]).
    exact I.
Defined.

(** The history of the witness: two successes and one mutation whose
    acknowledgement is lost bring the version to 3. *)
Example eventful_count :
  successes J1 eventful (run eventful (create_job Up J1 build VNone []).2).1 = 2
  ∧ (version_of <$> stored (run eventful (create_job Up J1 build VNone []).2).2 J1)
    = Some 3.
Proof. split; vm_compute; reflexivity. Qed.

(** C5 as stated fails: a cancellation that the server applies while the
    acknowledgement is lost raises [RetriableError], so that no mutation has
    succeeded, and yet the version has gone from 0 to 1. *)
Lemma lost_ack_not_counted :
  let c0 := (create_job Up J1 build VNone []).2 in
  let r := run [CancelJob (Down true) J1 (VInt 0)] c0 in
  (∃ d0, stored c0 J1 = Some d0 ∧ d0 !! "version" = Some (VInt 0)) ∧
  r.1 = [Raise RetriableError] ∧
  successes J1 [CancelJob (Down true) J1 (VInt 0)] r.1 = 0 ∧
  ∃ d, stored r.2 J1 = Some d ∧ d !! "version" = Some (VInt 1).
Proof.
  split.
  - eexists. split; [vm_compute; reflexivity|]. vm_compute; reflexivity.
  - split; [vm_compute; reflexivity|]. split; [vm_compute; reflexivity|].
    eexists. split; [vm_compute; reflexivity|]. vm_compute; reflexivity.
Qed.

(** * Further properties: the producer and worker calls one by one *)

(** A mutation at the version the record has. *)
Lemma _update_job_current c j d kw :
  wf c → assignable kw → stored c j = Some d →
  ∃ i, c !! i = Some d ∧
       _update_job Up j (VInt (version_of d)) kw c
       = (Ok None, <[i := updated kw d]> c) ∧
       wf (<[i := updated kw d]> c) ∧
       stored (<[i := updated kw d]> c) j = Some (updated kw d) ∧
       ∀ j', j' ≠ j → stored (<[i := updated kw d]> c) j' = stored c j'.
Proof.
  intros Hwf Hkw Hst.
  destruct (wf_stored _ _ _ Hwf Hst) as [[Hver _]%wf_doc_version _].
  assert (field d "version" = VInt (version_of d)) as Hf.
  { unfold field. by rewrite Hver. }
  destruct (first_match_stored _ _ _ _ Hwf Hst Hf) as (i & Hi & Hfm).
  apply stored_Some_elem in Hst as [_ Hj].
  assert (has_id j (updated kw d)) as Hj'.
  { unfold has_id. by rewrite field_updated_id. }
  exists i. split_and!; [done|by eapply _update_job_hit|by apply wf_insert| |].
  - by eapply stored_insert_eq; [apply Hwf|..].
  - intros j' Hne. by eapply stored_insert_ne; [apply Hwf|..].
Qed.

(** A mutation at any other version. *)
Lemma _update_job_stale c j d v kw :
  wf c → stored c j = Some d → v ≠ VInt (version_of d) →
  _update_job Up j v kw c = (Raise ConcurrencyError, c).
Proof.
  intros Hwf Hst Hv.
  destruct (wf_stored _ _ _ Hwf Hst) as [[Hver _]%wf_doc_version _].
  apply _update_job_miss, first_match_absent. intros x Hx [Hj Hxv].
  assert (stored c j = Some x) as Hx' by (by apply stored_elem; [apply Hwf|..]).
  assert (x = d) as -> by congruence.
  unfold field in Hxv. rewrite Hver in Hxv. simpl in Hxv. congruence.
Qed.

(** [cancel_job] asks nothing of the record but its version: at the version
    the record has, whatever its status, it sets the status to [CANCELLED],
    raises the version by one, leaves every other field and every other
    record as they were and returns [None]; at any other version it raises
    [ConcurrencyError] and changes nothing. *)
Theorem cancel_job_effect c j d :
  wf c → stored c j = Some d →
  (∃ c' d', cancel_job Up j (VInt (version_of d)) c = (Ok None, c') ∧
     stored c' j = Some d' ∧
     d' !! "status" = Some CANCELLED ∧
     d' !! "version" = Some (VInt (version_of d + 1)) ∧
     (∀ k, k ≠ "status" → k ≠ "version" → d' !! k = d !! k) ∧
     (∀ j', j' ≠ j → stored c' j' = stored c j')) ∧
  (∀ v, v ≠ VInt (version_of d) →
     cancel_job Up j v c = (Raise ConcurrencyError, c)).
Proof.
  intros Hwf Hst. split.
  - destruct (_update_job_current c j d {[ "status" := CANCELLED ]} Hwf)
      as (i & Hi & Hrun & Hwf' & Hst' & Hoth); [by split|done|].
    eexists _, _. unfold cancel_job. rewrite then_None, Hrun. simpl.
    split_and!; [done|done| |apply updated_version| |done].
    + by apply updated_set.
    + intros k Hk1 Hk2. apply updated_other; [done|].
      by rewrite lookup_singleton_ne.
  - intros v Hv. unfold cancel_job.
    by rewrite then_None, (_update_job_stale c j d v _ Hwf Hst Hv).
Qed.

Lemma cancel_job_effect_witness :
  ∃ c' d', cancel_job Up J1 (VInt (version_of (fresh_doc J1 build VNone))) one_idle
           = (Ok None, c') ∧
     stored c' J1 = Some d' ∧
     d' !! "status" = Some CANCELLED ∧
     d' !! "version" = Some (VInt (version_of (fresh_doc J1 build VNone) + 1)) ∧
     (∀ k, k ≠ "status" → k ≠ "version" →
           d' !! k = fresh_doc J1 build VNone !! k) ∧
     (∀ j', j' ≠ J1 → stored c' j' = stored one_idle j').
Proof.
  apply (cancel_job_effect one_idle J1 (fresh_doc J1 build VNone)).
  - exact wf_one_idle.
  - vm_compute; reflexivity.
Defined.

(** [heartbeat_job] checks neither the status nor the holder: at the
    version the record has it writes the clock reading into
    [worker_heartbeat], raises the version by one and leaves status, worker
    and every other field alone; at any other version it raises
    [ConcurrencyError] and changes nothing. *)
Theorem heartbeat_job_effect c j d now :
  wf c → stored c j = Some d →
  (∃ c' d', heartbeat_job Up now j (VInt (version_of d)) c = (Ok None, c') ∧
     stored c' j = Some d' ∧
     d' !! "worker_heartbeat" = Some (VDate now) ∧
     d' !! "version" = Some (VInt (version_of d + 1)) ∧
     (∀ k, k ≠ "worker_heartbeat" → k ≠ "version" → d' !! k = d !! k) ∧
     (∀ j', j' ≠ j → stored c' j' = stored c j')) ∧
  (∀ v, v ≠ VInt (version_of d) →
     heartbeat_job Up now j v c = (Raise ConcurrencyError, c)).
Proof.
  intros Hwf Hst. split.
  - destruct (_update_job_current c j d {[ "worker_heartbeat" := VDate now ]} Hwf)
      as (i & Hi & Hrun & Hwf' & Hst' & Hoth); [by split|done|].
    eexists _, _. unfold heartbeat_job. rewrite then_None, Hrun. simpl.
    split_and!; [done|done| |apply updated_version| |done].
    + by apply updated_set.
    + intros k Hk1 Hk2. apply updated_other; [done|].
      by rewrite lookup_singleton_ne.
  - intros v Hv. unfold heartbeat_job.
    by rewrite then_None, (_update_job_stale c j d v _ Hwf Hst Hv).
Qed.

Lemma heartbeat_job_effect_witness :
  ∃ c' d', heartbeat_job Up 2000 J1
             (VInt (version_of (updated (lease (VStr "w1") 1000)
                                  (fresh_doc J1 build VNone)))) one_locked
           = (Ok None, c') ∧
     stored c' J1 = Some d' ∧
     d' !! "worker_heartbeat" = Some (VDate 2000) ∧
     d' !! "version"
     = Some (VInt (version_of (updated (lease (VStr "w1") 1000)
                                 (fresh_doc J1 build VNone)) + 1)) ∧
     (∀ k, k ≠ "worker_heartbeat" → k ≠ "version" →
           d' !! k = updated (lease (VStr "w1") 1000) (fresh_doc J1 build VNone) !! k) ∧
     (∀ j', j' ≠ J1 → stored c' j' = stored one_locked j').
Proof.
  apply (heartbeat_job_effect one_locked J1
           (updated (lease (VStr "w1") 1000) (fresh_doc J1 build VNone)) 2000).
  - exact wf_one_locked.
  - vm_compute; reflexivity.
Defined.

(** [finalize_job] accepts any status and any payload: at the version the
    record has it writes both (the payload also when it is [None]), raises
    the version by one and leaves the other fields alone; at any other
    version it raises [ConcurrencyError] and changes nothing. *)
Theorem finalize_job_effect c j d status exc :
  wf c → stored c j = Some d →
  (∃ c' d', finalize_job Up j (VInt (version_of d)) status exc c = (Ok None, c') ∧
     stored c' j = Some d' ∧
     d' !! "status" = Some status ∧
     d' !! "worker_exception" = Some exc ∧
     d' !! "version" = Some (VInt (version_of d + 1)) ∧
     (∀ k, k ≠ "status" → k ≠ "worker_exception" → k ≠ "version" →
           d' !! k = d !! k) ∧
     (∀ j', j' ≠ j → stored c' j' = stored c j')) ∧
  (∀ v, v ≠ VInt (version_of d) →
     finalize_job Up j v status exc c = (Raise ConcurrencyError, c)).
Proof.
  intros Hwf Hst. split.
  - destruct (_update_job_current c j d
                {[ "status" := status; "worker_exception" := exc ]} Hwf)
      as (i & Hi & Hrun & Hwf' & Hst' & Hoth); [by split|done|].
    eexists _, _. unfold finalize_job. rewrite then_None, Hrun. simpl.
    split_and!; [done|done| | |apply updated_version| |done].
    + by apply updated_set.
    + by apply updated_set.
    + intros k Hk1 Hk2 Hk3. apply updated_other; [done|].
      rewrite lookup_insert_ne by done. by rewrite lookup_singleton_ne.
  - intros v Hv. unfold finalize_job.
    by rewrite then_None, (_update_job_stale c j d v _ Hwf Hst Hv).
Qed.

Lemma finalize_job_effect_witness :
  ∃ c' d', finalize_job Up J1
             (VInt (version_of (updated (lease (VStr "w1") 1000)
                                  (fresh_doc J1 build VNone))))
             (VStr "done") VNone one_locked
           = (Ok None, c') ∧
     stored c' J1 = Some d' ∧
     d' !! "status" = Some (VStr "done") ∧
     d' !! "worker_exception" = Some VNone ∧
     d' !! "version"
     = Some (VInt (version_of (updated (lease (VStr "w1") 1000)
                                 (fresh_doc J1 build VNone)) + 1)) ∧
     (∀ k, k ≠ "status" → k ≠ "worker_exception" → k ≠ "version" →
           d' !! k = updated (lease (VStr "w1") 1000) (fresh_doc J1 build VNone) !! k) ∧
     (∀ j', j' ≠ J1 → stored c' j' = stored one_locked j').
Proof.
  apply (finalize_job_effect one_locked J1
           (updated (lease (VStr "w1") 1000) (fresh_doc J1 build VNone))
           (VStr "done") VNone).
  - exact wf_one_locked.
  - vm_compute; reflexivity.
Defined.

(** * Further properties: how the calls compose *)

(** Compare-and-swap.  Of two mutations that carry the same expected
    version, the second finds the version moved: it raises
    [ConcurrencyError] and the outcome of the first stands. *)
Theorem update_job_once c j v kw1 kw2 c1 :
  wf c → assignable kw1 →
  _update_job Up j v kw1 c = (Ok None, c1) →
  _update_job Up j v kw2 c1 = (Raise ConcurrencyError, c1).
Proof.
  intros Hwf Hkw Hrun. rewrite _update_job_run in Hrun by done.
  destruct (Server.first_match _ c) as [[i d]|] eqn:E; [|done].
  injection Hrun as <-.
  apply first_match_Some in E as (Hi & [Hj Hv]%matches_id_version & _).
  apply (_update_job_stale _ j (updated kw1 d)).
  - by apply wf_insert.
  - eapply stored_insert_eq; [apply Hwf|done|done|].
    unfold has_id. by rewrite field_updated_id.
  - rewrite version_of_updated.
    destruct (wf_lookup _ _ _ Hwf Hi) as [_ (n & Hn & _)].
    unfold field in Hv. rewrite Hn in Hv. simpl in Hv. subst v.
    unfold version_of. rewrite Hn. intros [=]. lia.
Qed.

Lemma update_job_once_witness :
  _update_job Up J1 (VInt 0) {[ "status" := VStr "done" ]} one_cancelled
  = (Raise ConcurrencyError, one_cancelled).
Proof.
  apply (update_job_once one_idle J1 (VInt 0) {[ "status" := CANCELLED ]}).
  - exact wf_one_idle.
  - split; reflexivity.
  - vm_compute; reflexivity.
Defined.

(** A job handed out by [acquire_job] is the update of a stored record. *)
Lemma acquire_job_Some e tags w c job c1 :
  wf c → acquire_job e tags w c = (Ok (Some job), c1) →
  ∃ i d t, c !! i = Some d ∧ (t = idle_now e ∨ t = stale_now_u e) ∧
           job = job_of (updated (lease w t) d) ∧
           c1 = <[i := updated (lease w t) d]> c.
Proof.
  intros Hwf. rewrite acquire_job_run, _try_acquire_idle_job_eq.
  destruct (_find_one_and_update (idle_net e) _ _ c) as [[[job1|]|ex] c0] eqn:E1.
  - intros [= <- <-].
    apply _find_one_and_update_Some in E1 as (i & d & Hi & _ & -> & ->);
      [|done|apply assignable_lease].
    exists i, d, (idle_now e). auto.
  - rewrite _find_one_and_update_run in E1; [|done|apply assignable_lease].
    assert (c0 = c) as ->.
    { destruct (Server.first_match _ c) as [[i d]|]; destruct (idle_net e) as [|[|]];
        by injection E1. }
    rewrite _try_reacquire_locked_job_eq. intros E2.
    apply _find_one_and_update_Some in E2 as (i & d & Hi & _ & -> & ->);
      [|done|apply assignable_lease].
    exists i, d, (stale_now_u e). auto.
  - done.
Qed.

(** The version carried by the job that [acquire_job] returns is the current
    one: a heartbeat with it succeeds (and only with it), keeps the lease of
    the worker and moves the version on by one. *)
Theorem acquired_version_is_current e tags w c job c1 now :
  wf c → acquire_job e tags w c = (Ok (Some job), c1) →
  ∃ v, attrs job !! "version" = Some (VInt v) ∧
       (∃ c2 d2, heartbeat_job Up now (job_id job) (VInt v) c1 = (Ok None, c2) ∧
          stored c2 (job_id job) = Some d2 ∧
          d2 !! "version" = Some (VInt (v + 1)) ∧
          d2 !! "worker_heartbeat" = Some (VDate now) ∧
          d2 !! "worker_id" = Some w ∧
          d2 !! "status" = Some LOCKED) ∧
       (∀ v', v' ≠ VInt v →
          heartbeat_job Up now (job_id job) v' c1 = (Raise ConcurrencyError, c1)).
Proof.
  intros Hwf Hacq.
  destruct (acquire_job_Some _ _ _ _ _ _ Hwf Hacq) as (i & d & t & Hi & _ & -> & ->).
  pose proof (assignable_lease w t) as Hkw.
  destruct (job_of_updated (lease w t) d Hkw) as (Hid & Hver & _).
  exists (version_of d + 1). split; [done|]. rewrite Hid.
  assert (wf (<[i := updated (lease w t) d]> c)) as Hwf1 by (by apply wf_insert).
  assert (stored (<[i := updated (lease w t) d]> c) (field d "job_id")
          = Some (updated (lease w t) d)) as Hst1.
  { eapply stored_insert_eq; [apply Hwf|done|reflexivity|].
    unfold has_id. by rewrite field_updated_id. }
  assert (assignable {[ "worker_heartbeat" := VDate now ]}) as Hhb
    by (split; reflexivity).
  split.
  - destruct (_update_job_current _ _ _ {[ "worker_heartbeat" := VDate now ]}
                Hwf1 Hhb Hst1)
      as (k & Hk & Hrun & Hwf2 & Hst2 & _).
    rewrite version_of_updated in Hrun.
    eexists _, _. unfold heartbeat_job. rewrite then_None, Hrun. simpl.
    split_and!; [done|done| | | |].
    + by rewrite updated_version, version_of_updated.
    + by apply updated_set.
    + rewrite updated_other by done. by apply updated_set.
    + rewrite updated_other by done. by apply updated_set.
  - intros v' Hv'. unfold heartbeat_job. rewrite then_None.
    rewrite (_update_job_stale _ _ _ v' _ Hwf1 Hst1); [done|].
    by rewrite version_of_updated.
Qed.

Lemma acquired_version_is_current_witness :
  ∃ v, attrs (job_of (updated (lease (VStr "w1") 1000) (fresh_doc J1 build VNone)))
         !! "version" = Some (VInt v) ∧
       (∃ c2 d2,
          heartbeat_job Up 2000
            (job_id (job_of (updated (lease (VStr "w1") 1000)
                               (fresh_doc J1 build VNone))))
            (VInt v) one_locked = (Ok None, c2) ∧
          stored c2 (job_id (job_of (updated (lease (VStr "w1") 1000)
                                       (fresh_doc J1 build VNone)))) = Some d2 ∧
          d2 !! "version" = Some (VInt (v + 1)) ∧
          d2 !! "worker_heartbeat" = Some (VDate 2000) ∧
          d2 !! "worker_id" = Some (VStr "w1") ∧
          d2 !! "status" = Some LOCKED) ∧
       (∀ v', v' ≠ VInt v →
          heartbeat_job Up 2000
            (job_id (job_of (updated (lease (VStr "w1") 1000)
                               (fresh_doc J1 build VNone))))
            v' one_locked = (Raise ConcurrencyError, one_locked)).
Proof.
  apply (acquired_version_is_current (calm 1000) [build] (VStr "w1") one_idle).
  - exact wf_one_idle.
  - vm_compute; reflexivity.
Defined.

(** * Further properties: round trips *)


(** What [create_job] has written, [get_job] reads back: the identifier, and
    beside it the tag, the arguments, version 0 and status [IDLE]. *)
Theorem create_then_get c j tag args :
  wf c → stored c j = None →
  let c1 := (create_job Up j tag args c).2 in
  get_job Up j c1
  = (Ok (Some (mkAveryJob j {[ "tag" := tag; "args" := py_or args (VDict FNil);
                               "version" := VInt 0; "status" := IDLE ]})), c1).
Proof.
  intros Hwf Hnone c1. subst c1. rewrite (create_job_fresh _ _ _ _ Hnone). simpl.
  rewrite get_job_Up.
  assert (stored (c ++ [fresh_doc j tag args]) j = Some (fresh_doc j tag args)) as ->.
  { rewrite <- (field_fresh_doc j tag args) at 2.
    apply stored_app_eq; [apply Hwf|]. by rewrite field_fresh_doc. }
  reflexivity.
Qed.

Lemma create_then_get_witness :
  let c1 := (create_job Up J2 build (VInt 0) one_idle).2 in
  get_job Up J2 c1
  = (Ok (Some (mkAveryJob J2 {[ "tag" := build; "args" := py_or (VInt 0) (VDict FNil);
                                "version" := VInt 0; "status" := IDLE ]})), c1).
Proof.
  apply (create_then_get one_idle J2 build (VInt 0)).
  - exact wf_one_idle.
  - vm_compute; reflexivity.
Defined.

(** Retrying [create_job] after a [RetriableError] is safe: whether the
    first insert reached the server or not, the retry returns normally and
    leaves exactly one record under the identifier, that of the first call
    if it had been applied and that of the retry otherwise. *)
Theorem create_job_retry c j tag args tag' args' applied :
  wf c → stored c j = None →
  let r1 := create_job (Down applied) j tag args c in
  let r2 := create_job Up j tag' args' r1.2 in
  r1.1 = Raise RetriableError ∧ r2.1 = Ok None ∧
  stored r2.2 j
  = Some (if applied then fresh_doc j tag args else fresh_doc j tag' args') ∧
  length (filter (has_id j) r2.2) = 1%nat.
Proof.
  intros Hwf Hnone r1 r2. subst r2 r1.
  split; [apply create_job_Down|].
  assert (∀ t a, stored (c ++ [fresh_doc j t a]) j = Some (fresh_doc j t a)) as Hst.
  { intros t a. rewrite <- (field_fresh_doc j t a) at 2.
    apply stored_app_eq; [apply Hwf|]. by rewrite field_fresh_doc. }
  assert (∀ t a, length (filter (has_id j) (c ++ [fresh_doc j t a])) = 1%nat) as Hlen.
  { intros t a. rewrite filter_app, filter_has_id_None by done. simpl.
    by rewrite filter_cons_True by apply field_fresh_doc. }
  destruct applied.
  - assert ((create_job (Down true) j tag args c).2 = c ++ [fresh_doc j tag args])
      as ->.
    { destruct (create_job_state (Down true) j tag args c) as [H|[_ H]]; [|done].
      exfalso. revert H. unfold create_job. fold (fresh_doc j tag args).
      rewrite bind_run. unfold try_except, insert_one, call, Server.insert_one.
      assert (Server.dup_key (fresh_doc j tag args) c = false) as ->.
      { apply dup_key_false. by rewrite field_fresh_doc. }
      simpl. intros H. apply (f_equal length) in H. rewrite length_app in H.
      simpl in H. lia. }
    rewrite create_job_dup by (by rewrite Hst). simpl. by rewrite Hst, Hlen.
  - simpl. rewrite create_job_fresh by done. simpl. by rewrite Hst, Hlen.
Qed.

Lemma create_job_retry_witness :
  let r1 := create_job (Down true) J1 build VNone [] in
  let r2 := create_job Up J1 (VStr "test") VNone r1.2 in
  r1.1 = Raise RetriableError ∧ r2.1 = Ok None ∧
  stored r2.2 J1
  = Some (if true then fresh_doc J1 build VNone else fresh_doc J1 (VStr "test") VNone) ∧
  length (filter (has_id J1) r2.2) = 1%nat.
Proof.
  apply (create_job_retry [] J1 build VNone (VStr "test") VNone true).
  - exact wf_nil.
  - reflexivity.
Defined.

(** After [delete_job] at the version the record has, the job is gone:
    [get_job] raises, a second deletion and every mutation raise
    [ConcurrencyError], and [create_job] may use the identifier again, the
    new record starting at version 0. *)
Theorem delete_then_gone c j d :
  wf c → stored c j = Some d →
  let r := delete_job Up j (VInt (version_of d)) c in
  r.1 = Ok None ∧
  get_job Up j r.2 = (Raise AttributeError, r.2) ∧
  (∀ v, delete_job Up j v r.2 = (Raise ConcurrencyError, r.2)) ∧
  (∀ v kw, _update_job Up j v kw r.2 = (Raise ConcurrencyError, r.2)) ∧
  (∀ tag args, ∃ d', stored (create_job Up j tag args r.2).2 j = Some d' ∧
                     d' !! "version" = Some (VInt 0)).
Proof.
  intros Hwf Hst r.
  destruct (wf_stored _ _ _ Hwf Hst) as [[Hver _]%wf_doc_version _].
  assert (field d "version" = VInt (version_of d)) as Hf.
  { unfold field. by rewrite Hver. }
  destruct (first_match_stored _ _ _ _ Hwf Hst Hf) as (i & Hi & Hfm).
  subst r. rewrite (delete_job_hit _ _ _ _ _ Hfm). simpl.
  apply stored_Some_elem in Hst as [_ Hj].
  assert (stored (delete i c) j = None) as Hgone.
  { by eapply stored_delete_eq; [apply Hwf|..]. }
  assert (∀ v, Server.first_match [("job_id", Eq j); ("version", Eq v)] (delete i c)
               = None) as Hmiss.
  { intros v. apply first_match_absent. intros x Hx [Hxj _].
    rewrite stored_None in Hgone. by apply (Hgone x). }
  split_and!; [done| | | |].
  - by rewrite get_job_Up, Hgone.
  - intros v. by apply delete_job_miss.
  - intros v kw. by apply _update_job_miss.
  - intros tag args. rewrite create_job_fresh by done. simpl.
    exists (fresh_doc j tag args). split; [|reflexivity].
    rewrite <- (field_fresh_doc j tag args) at 2.
    apply stored_app_eq; [|by rewrite field_fresh_doc].
    rewrite ids_delete. apply NoDup_delete, Hwf.
Qed.

Lemma delete_then_gone_witness :
  let r := delete_job Up J1 (VInt (version_of (fresh_doc J1 build VNone))) one_idle in
  r.1 = Ok None ∧
  get_job Up J1 r.2 = (Raise AttributeError, r.2) ∧
  (∀ v, delete_job Up J1 v r.2 = (Raise ConcurrencyError, r.2)) ∧
  (∀ v kw, _update_job Up J1 v kw r.2 = (Raise ConcurrencyError, r.2)) ∧
  (∀ tag args, ∃ d', stored (create_job Up J1 tag args r.2).2 J1 = Some d' ∧
                     d' !! "version" = Some (VInt 0)).
Proof.
  apply (delete_then_gone one_idle J1 (fresh_doc J1 build VNone)).
  - exact wf_one_idle.
  - vm_compute; reflexivity.
Defined.

(** * Further properties: what every history keeps *)

Lemma _update_job_state net j v kw c :
  wf c → assignable kw →
  (_update_job net j v kw c).2 = c
  ∨ ∃ i d, c !! i = Some d ∧ (_update_job net j v kw c).2 = <[i := updated kw d]> c.
Proof.
  intros Hwf Hkw. rewrite _update_job_run by done.
  destruct (Server.first_match _ c) as [[i d]|] eqn:E; [|by left].
  apply first_match_Some in E as (Hi & _).
  destruct net as [|[|]]; simpl; eauto.
Qed.

Lemma _update_job_wf_ids net j v kw c :
  wf c → assignable kw →
  wf (_update_job net j v kw c).2 ∧ ids (_update_job net j v kw c).2 = ids c.
Proof.
  intros Hwf Hkw.
  destruct (_update_job_state net j v kw c Hwf Hkw) as [->|(i & d & Hi & ->)];
    [done|].
  split; [by apply wf_insert|]. eapply ids_insert; [done|]. by apply field_updated_id.
Qed.

Lemma _find_one_and_update_wf_ids net q kw c :
  wf c → assignable kw →
  let c' := (_find_one_and_update net q (Update [("version", 1)] kw) c).2 in
  wf c' ∧ ids c' = ids c.
Proof.
  intros Hwf Hkw.
  destruct (_find_one_and_update_state net q kw c Hwf Hkw)
    as [->|(i & d & Hi & _ & ->)]; [done|].
  split; [by apply wf_insert|]. eapply ids_insert; [done|]. by apply field_updated_id.
Qed.

Lemma acquire_job_wf_ids e tags w c :
  wf c → wf (acquire_job e tags w c).2 ∧ ids (acquire_job e tags w c).2 = ids c.
Proof.
  intros Hwf. rewrite acquire_job_run, _try_acquire_idle_job_eq.
  destruct (_find_one_and_update_wf_ids (idle_net e)
              [("tag", In tags); ("status", Eq IDLE)]
              (lease w (idle_now e)) c Hwf (assignable_lease _ _)) as [Hwf1 Hids1].
  destruct (_find_one_and_update (idle_net e) _ _ c) as [[[job|]|ex] c1];
    simpl in Hwf1, Hids1 |- *; try done.
  rewrite _try_reacquire_locked_job_eq, <- Hids1.
  apply _find_one_and_update_wf_ids; [done|apply assignable_lease].
Qed.

Lemma perform_wf r c : wf c → wf (perform r c).2.
Proof.
  intros Hwf.
  destruct r as [net j tag args|net j|net j v|net j v|e tags w|net now j v|net j v s x];
    simpl.
  - destruct (create_job_state net j tag args c) as [->|[Hnone ->]]; [done|].
    apply wf_app; [done|apply wf_fresh_doc|by rewrite field_fresh_doc].
  - by rewrite get_job_state.
  - unfold cancel_job. rewrite then_None. simpl. by apply _update_job_wf_ids.
  - destruct (delete_job_state net j v c) as [->|(i & d & Hi & _ & ->)]; [done|].
    by apply wf_delete.
  - by apply acquire_job_wf_ids.
  - unfold heartbeat_job. rewrite then_None. simpl. by apply _update_job_wf_ids.
  - unfold finalize_job. rewrite then_None. simpl. by apply _update_job_wf_ids.
Qed.

Lemma run_wf rs c : wf c → wf (run rs c).2.
Proof.
  revert c. induction rs as [|r rs IH]; intros c Hwf; simpl; [done|].
  by apply IH, perform_wf.
Qed.

(** Whatever calls are made, in whatever order and over whatever
    connection, starting from the empty collection: no two records share an
    identifier, and every record carries its identifier and an integer
    version that is not negative. *)
Theorem history_invariant rs :
  let c := (run rs []).2 in
  NoDup (ids c) ∧
  ∀ d, d ∈ c → is_Some (d !! "job_id") ∧ ∃ n, d !! "version" = Some (VInt n) ∧ 0 ≤ n.
Proof.
  destruct (run_wf rs [] wf_nil) as [Hnd Hall]. split; [done|].
  intros d Hd. rewrite Forall_forall in Hall. by apply Hall.
Qed.

Lemma stored_None_ids c j : stored c j = None ↔ j ∉ ids c.
Proof.
  rewrite stored_None. unfold ids. rewrite list_elem_of_fmap. split.
  - intros H (d & -> & Hd). by apply (H d).
  - intros H d Hd Hj. apply H. exists d. by rewrite Hj.
Qed.

(** The identifier of a record never changes and records come and go only
    by [create_job] and [delete_job]: any other call leaves the list of
    identifiers as it is, a creation at most appends its own identifier when
    it is new, a deletion at most removes its own. *)
Theorem job_ids_stable r c :
  wf c →
  let c' := (perform r c).2 in
  match r with
  | CreateJob _ j _ _ => ids c' = ids c ∨ ((j ∉ ids c) ∧ ids c' = ids c ++ [j])
  | DeleteJob _ j _ =>
      ids c' = ids c ∨ (∃ i, ids c !! i = Some j ∧ ids c' = delete i (ids c))
  | _ => ids c' = ids c
  end.
Proof.
  intros Hwf c'. subst c'.
  destruct r as [net j tag args|net j|net j v|net j v|e tags w|net now j v|net j v s x];
    simpl.
  - destruct (create_job_state net j tag args c) as [->|[Hnone ->]]; [by left|].
    right. split; [by apply stored_None_ids|]. by rewrite ids_app, field_fresh_doc.
  - by rewrite get_job_state.
  - unfold cancel_job. rewrite then_None. simpl. by apply _update_job_wf_ids.
  - destruct (delete_job_state net j v c) as [->|(i & d & Hi & Hj & ->)]; [by left|].
    right. exists i. split; [|apply ids_delete].
    rewrite <- Hj. by apply ids_lookup.
  - by apply acquire_job_wf_ids.
  - unfold heartbeat_job. rewrite then_None. simpl. by apply _update_job_wf_ids.
  - unfold finalize_job. rewrite then_None. simpl. by apply _update_job_wf_ids.
Qed.

Lemma job_ids_stable_witness :
  ids (perform (AcquireJob (calm 1000) [build] (VStr "w1")) one_idle).2 = ids one_idle
  ∧ (ids (perform (DeleteJob Up J1 (VInt 0)) one_idle).2 = ids one_idle
     ∨ ∃ i, ids one_idle !! i = Some J1
            ∧ ids (perform (DeleteJob Up J1 (VInt 0)) one_idle).2 = delete i (ids one_idle)).
Proof.
  split.
  - apply (job_ids_stable (AcquireJob (calm 1000) [build] (VStr "w1")) one_idle).
    exact wf_one_idle.
  - apply (job_ids_stable (DeleteJob Up J1 (VInt 0)) one_idle). exact wf_one_idle.
Defined.

(** * Further properties: leases *)

(** A lease that has gone stale is taken over.  With a sound connection,
    when no record with a requested tag is [IDLE] and some [LOCKED] record
    with a requested tag has a heartbeat older than the cutoff,
    [acquire_job] returns such a record, now held by the calling worker,
    with the heartbeat read for the update and the version raised by one. *)
Theorem stale_lease_reclaimed e tags w c x h :
  wf c → idle_net e = Up → stale_net e = Up →
  (∀ y, y ∈ c → ¬ (field y "tag" ∈ tags ∧ field y "status" = IDLE)) →
  x ∈ c → field x "tag" ∈ tags → field x "status" = LOCKED →
  x !! "worker_heartbeat" = Some (VDate h) → h < stale_now_q e - HEARTBEAT_TIMEOUT →
  ∃ i d hd, c !! i = Some d ∧ field d "tag" ∈ tags ∧ field d "status" = LOCKED ∧
    d !! "worker_heartbeat" = Some (VDate hd) ∧
    hd < stale_now_q e - HEARTBEAT_TIMEOUT ∧
    let d' := updated (lease w (stale_now_u e)) d in
    acquire_job e tags w c = (Ok (Some (job_of d')), <[i := d']> c) ∧
    job_id (job_of d') = field d "job_id" ∧
    d' !! "worker_id" = Some w ∧
    d' !! "worker_heartbeat" = Some (VDate (stale_now_u e)) ∧
    d' !! "status" = Some LOCKED ∧
    d' !! "version" = Some (VInt (version_of d + 1)).
Proof.
  intros Hwf Hup1 Hup2 Hno Hx Ht Hs Hh Hlt.
  destruct (first_match_is_Some
              [("tag", In tags); ("status", Eq LOCKED);
               ("worker_heartbeat", LtDate (stale_now_q e - HEARTBEAT_TIMEOUT))] c x)
    as [[i d] Hfm]; [done|apply matches_stale; eauto|].
  pose proof Hfm as (Hi & (Hdt & Hds & hd & Hdh & Hdlt)%matches_stale & _)%first_match_Some.
  exists i, d, hd. split_and!; try done. simpl.
  pose proof (assignable_lease w (stale_now_u e)) as Hkw.
  split_and!.
  - rewrite acquire_job_run, _try_acquire_idle_job_eq.
    rewrite _find_one_and_update_run; [|done|apply assignable_lease].
    assert (Server.first_match [("tag", In tags); ("status", Eq IDLE)] c = None) as ->.
    { apply first_match_None. intros y Hy Hm%matches_idle. by apply (Hno y). }
    rewrite Hup1, _try_reacquire_locked_job_eq.
    by rewrite _find_one_and_update_run, Hfm, Hup2.
  - by apply field_updated_id.
  - by apply updated_set.
  - by apply updated_set.
  - by apply updated_set.
  - apply updated_version.
Qed.

Lemma stale_lease_reclaimed_witness :
  ∃ i d hd, one_locked !! i = Some d ∧ field d "tag" ∈ [build] ∧
    field d "status" = LOCKED ∧
    d !! "worker_heartbeat" = Some (VDate hd) ∧
    hd < stale_now_q (calm 700000) - HEARTBEAT_TIMEOUT ∧
    let d' := updated (lease (VStr "w2") (stale_now_u (calm 700000))) d in
    acquire_job (calm 700000) [build] (VStr "w2") one_locked
    = (Ok (Some (job_of d')), <[i := d']> one_locked) ∧
    job_id (job_of d') = field d "job_id" ∧
    d' !! "worker_id" = Some (VStr "w2") ∧
    d' !! "worker_heartbeat" = Some (VDate (stale_now_u (calm 700000))) ∧
    d' !! "status" = Some LOCKED ∧
    d' !! "version" = Some (VInt (version_of d + 1)).
Proof.
  apply (stale_lease_reclaimed (calm 700000) [build] (VStr "w2") one_locked
           (updated (lease (VStr "w1") 1000) (fresh_doc J1 build VNone)) 1000).
  - exact wf_one_locked.
  - reflexivity.
  - reflexivity.
  - intros y ->%list_elem_of_singleton [_ H]. vm_compute in H. discriminate.
  - by left.
  - by left.
  - reflexivity.
  - reflexivity.
  - reflexivity.
Defined.

(** A heartbeat in time keeps the lease.  After [heartbeat_job] has written
    the reading [now] into a [LOCKED] record, an acquisition whose cutoff
    is not past [now] does not return that job, whatever tags it asks for,
    and leaves the record with its worker. *)
Theorem heartbeat_keeps_lease c j d now e tags w :
  wf c → stored c j = Some d → field d "status" = LOCKED →
  stale_now_q e - HEARTBEAT_TIMEOUT ≤ now →
  let c1 := (heartbeat_job Up now j (VInt (version_of d)) c).2 in
  let r := acquire_job e tags w c1 in
  (∀ job, r.1 = Ok (Some job) → job_id job ≠ j) ∧
  ∃ d1, stored r.2 j = Some d1 ∧
        d1 !! "worker_id" = d !! "worker_id" ∧
        d1 !! "worker_heartbeat" = Some (VDate now) ∧
        d1 !! "version" = Some (VInt (version_of d + 1)).
Proof.
  intros Hwf Hst Hlocked Hfresh c1 r. subst r c1.
  assert (assignable {[ "worker_heartbeat" := VDate now ]}) as Hkw
    by (split; reflexivity).
  destruct (_update_job_current c j d _ Hwf Hkw Hst)
    as (i & Hi & Hrun & Hwf1 & Hst1 & _).
  unfold heartbeat_job at 1 2. rewrite then_None, Hrun. simpl.
  set (d1 := updated {[ "worker_heartbeat" := VDate now ]} d) in *.
  assert (d1 !! "worker_heartbeat" = Some (VDate now)) as Hhb.
  { by apply updated_set. }
  assert (field d1 "status" = LOCKED) as Hs1.
  { unfold field, d1. rewrite updated_other by done. exact Hlocked. }
  destruct (acquire_job_skips e tags w _ j d1 Hwf1 Hst1) as (_ & Hst2 & Hnot).
  - apply rejects_idle. by rewrite Hs1.
  - intros (_ & _ & h & Hh & Hlt)%matches_stale.
    rewrite Hhb in Hh. injection Hh as <-. lia.
  - split; [done|]. exists d1. split; [done|].
    split; [by apply updated_other|]. split; [done|apply updated_version].
Qed.

Lemma heartbeat_keeps_lease_witness :
  let c1 := (heartbeat_job Up 500000 J1
               (VInt (version_of (updated (lease (VStr "w1") 1000)
                                    (fresh_doc J1 build VNone)))) one_locked).2 in
  let r := acquire_job (calm 700000) [build] (VStr "w2") c1 in
  (∀ job, r.1 = Ok (Some job) → job_id job ≠ J1) ∧
  ∃ d1, stored r.2 J1 = Some d1 ∧
        d1 !! "worker_id"
        = updated (lease (VStr "w1") 1000) (fresh_doc J1 build VNone) !! "worker_id" ∧
        d1 !! "worker_heartbeat" = Some (VDate 500000) ∧
        d1 !! "version"
        = Some (VInt (version_of (updated (lease (VStr "w1") 1000)
                                    (fresh_doc J1 build VNone)) + 1)).
Proof.
  apply (heartbeat_keeps_lease one_locked J1
           (updated (lease (VStr "w1") 1000) (fresh_doc J1 build VNone))
           500000 (calm 700000) [build] (VStr "w2")).
  - exact wf_one_locked.
  - vm_compute; reflexivity.
  - reflexivity.
  - vm_compute. discriminate.
Defined.

(** * Further properties: two acquisitions at once *)

(** A caller stepping alone goes through [acquire_job]. *)
Lemma advance_alone p c :
  ∃ s1 c1, advance p AtIdle c = Some (s1, c1) ∧
    match s1 with
    | Returned o => acquire_job (c_env p) (c_tags p) (c_worker p) c = (o, c1)
    | AtStale => ∃ o c2, advance p AtStale c1 = Some (Returned o, c2) ∧
                         acquire_job (c_env p) (c_tags p) (c_worker p) c = (o, c2)
    | AtIdle => False
    end.
Proof.
  eexists _, _. split; [reflexivity|]. rewrite acquire_job_run.
  destruct (_try_acquire_idle_job _ _ _ _ c) as [[[job|]|ex] c1]; simpl; try done.
  eexists _, _. split; [reflexivity|].
  by destruct (_try_reacquire_locked_job _ _ _ _ _ c1).
Qed.

(** One phase of caller [p], run while caller [q] may hold a lease: the
    lease of [q] stays as it is, and a job that the phase returns is another
    one, whose record is now held against [q]. *)
Lemma phase_exclusive p q net qry t c sq :
  wf c → held_against p c sq →
  (∀ d h, field d "status" = LOCKED → d !! "worker_heartbeat" = Some (VDate h) →
          stale_now_q (c_env p) - HEARTBEAT_TIMEOUT ≤ h → matches qry d ≠ true) →
  stale_now_q (c_env q) - HEARTBEAT_TIMEOUT ≤ t →
  let r := _find_one_and_update net qry
             (Update [("version", 1)] (lease (c_worker p) t)) c in
  wf r.2 ∧ held_against p r.2 sq ∧ held_against q r.2 (Returned r.1) ∧
  ∀ job jq, r.1 = Ok (Some job) → sq = Returned (Ok (Some jq)) →
            job_id job ≠ job_id jq.
Proof.
  intros Hwf Hheld Hrej Ht r. subst r.
  pose proof (assignable_lease (c_worker p) t) as Hkw.
  split_and!.
  - by apply _find_one_and_update_wf_ids.
  - intros jq Hsq. destruct (Hheld jq Hsq) as (dq & h & Hst & Hs & Hh & Hle).
    exists dq, h. split_and!; try done.
    by apply (phase_skips net qry _ c (job_id jq) dq Hwf Hkw Hst (Hrej dq h Hs Hh Hle)).
  - intros job [= Hjob].
    destruct (_find_one_and_update net qry _ c) as [o c1] eqn:E. simpl in *. subst o.
    apply _find_one_and_update_Some in E as (i & d & Hi & _ & -> & ->); [|done..].
    destruct (job_of_updated (lease (c_worker p) t) d Hkw) as (Hid & _).
    exists (updated (lease (c_worker p) t) d), t. split_and!.
    + rewrite Hid. eapply stored_insert_eq; [apply Hwf|done|reflexivity|].
      unfold has_id. by rewrite field_updated_id.
    + unfold field. by rewrite (updated_set _ _ "status" LOCKED).
    + by apply updated_set.
    + done.
  - intros job jq Hjob Hsq. destruct (Hheld jq Hsq) as (dq & h & Hst & Hs & Hh & Hle).
    by apply (phase_skips net qry _ c (job_id jq) dq Hwf Hkw Hst (Hrej dq h Hs Hh Hle)).
Qed.

(** One driver call of [p] while [q] may hold a lease. *)
Lemma advance_exclusive p q s sq c s' c' :
  wf c → timely p q → held_against p c sq →
  advance p s c = Some (s', c') →
  wf c' ∧ held_against p c' sq ∧ held_against q c' s' ∧
  ∀ job jq, s' = Returned (Ok (Some job)) → sq = Returned (Ok (Some jq)) →
            job_id job ≠ job_id jq.
Proof.
  intros Hwf [Ht1 Ht2] Hheld Hadv. destruct s as [| |o]; [| |done].
  - injection Hadv as <- <-. rewrite _try_acquire_idle_job_eq.
    destruct (phase_exclusive p q (idle_net (c_env p))
                [("tag", In (c_tags p)); ("status", Eq IDLE)] (idle_now (c_env p))
                c sq Hwf Hheld) as (Hwf' & Hheld' & Hnew & Hapart); [|done|].
    { intros d h Hs _ _. apply rejects_idle. by rewrite Hs. }
    split_and!; [done|done| |].
    + intros job Hjob. apply Hnew.
      destruct (_find_one_and_update _ _ _ c) as [[[j0|]|ex] c1]; simpl in *; congruence.
    + intros job jq Hjob. apply Hapart.
      destruct (_find_one_and_update _ _ _ c) as [[[j0|]|ex] c1]; simpl in *; congruence.
  - injection Hadv as <- <-. rewrite _try_reacquire_locked_job_eq.
    destruct (phase_exclusive p q (stale_net (c_env p))
                [("tag", In (c_tags p)); ("status", Eq LOCKED);
                 ("worker_heartbeat",
                  LtDate (stale_now_q (c_env p) - HEARTBEAT_TIMEOUT))]
                (stale_now_u (c_env p)) c sq Hwf Hheld)
      as (Hwf' & Hheld' & Hnew & Hapart); [|done|].
    { intros d h _ Hh Hle (_ & _ & h' & Hh' & Hlt)%matches_stale.
      rewrite Hh in Hh'. injection Hh' as <-. lia. }
    split_and!; [done|done|done|].
    intros job jq [= Hjob]. by apply Hapart.
Qed.

Lemma race_exclusive a b cfg cfg' :
  timely a b → timely b a → exclusive a b cfg → race a b cfg cfg' → exclusive a b cfg'.
Proof.
  intros Hab Hba Hex Hstep. destruct Hstep as [c sa sb sa' c' Hadv|c sa sb sb' c' Hadv];
    destruct Hex as (Hwf & Ha & Hb & Hapart).
  - destruct (advance_exclusive a b sa sb c sa' c' Hwf Hab Hb Hadv)
      as (Hwf' & Hb' & Ha' & Hne).
    by split_and!.
  - destruct (advance_exclusive b a sb sa c sb' c' Hwf Hba Ha Hadv)
      as (Hwf' & Ha' & Hb' & Hne).
    split_and!; try done. intros ja jb Hja Hjb Heq. by apply (Hne jb ja).
Qed.

(** Mutual exclusion.  Let two calls of [acquire_job] run against one
    collection, their driver calls interleaved in any way and over any
    connection, each with a staleness cutoff that is not past the heartbeats
    the other writes.  If both return a job, the jobs are not the same. *)
Theorem acquisitions_exclusive a b c0 c ja jb :
  wf c0 → timely a b → timely b a →
  rtc (race a b) (c0, AtIdle, AtIdle)
      (c, Returned (Ok (Some ja)), Returned (Ok (Some jb))) →
  job_id ja ≠ job_id jb.
Proof.
  intros Hwf Hab Hba Hrun.
  assert (exclusive a b (c, Returned (Ok (Some ja)), Returned (Ok (Some jb)))) as Hex.
  { eapply (rtc_ind_r (exclusive a b) (c0, AtIdle, AtIdle)); [|intros y z _ Hstep Hy|done].
    - split_and!; [done|by intros ?|by intros ?|by intros ? ? ?].
    - by eapply race_exclusive. }
  destruct Hex as (_ & _ & _ & Hne). by apply Hne.
Qed.

Lemma wf_two_idle : wf two_idle.
Proof. solve_wf. Qed.

Lemma acquisitions_exclusive_witness :
  job_id (job_of (updated (lease (VStr "w1") 1000) (fresh_doc J1 build VNone)))
  ≠ job_id (job_of (updated (lease (VStr "w2") 1001) (fresh_doc J2 build VNone))).
Proof.
  apply (acquisitions_exclusive worker1 worker2 two_idle
           [updated (lease (VStr "w1") 1000) (fresh_doc J1 build VNone);
            updated (lease (VStr "w2") 1001) (fresh_doc J2 build VNone)]).
  - exact wf_two_idle.
  - split; vm_compute; discriminate.
  - split; vm_compute; discriminate.
  - eapply rtc_l.
    { apply (race_left worker1 worker2 two_idle AtIdle AtIdle
               (Returned (Ok (Some (job_of (updated (lease (VStr "w1") 1000)
                                              (fresh_doc J1 build VNone))))))
               [updated (lease (VStr "w1") 1000) (fresh_doc J1 build VNone);
                fresh_doc J2 build VNone]).
      vm_compute; reflexivity. }
    eapply rtc_l; [|apply rtc_refl].
    apply race_right. vm_compute; reflexivity.
Defined.

(** ** One idle job, two takers *)

(** The only record that can match: it is the first match. *)
Lemma sole_match q c i d :
  wf c → c !! i = Some d → matches q d = true →
  (∀ x, x ∈ c → field x "job_id" ≠ field d "job_id" → matches q x ≠ true) →
  Server.first_match q c = Some (i, d).
Proof.
  intros Hwf Hi Hm Hsole. apply first_match_Some. split; [done|]. split; [done|].
  intros k y Hk Hlt Hy.
  destruct (decide (field y "job_id" = field d "job_id")) as [Heq|Hne].
  - assert (k = i); [|lia]. eapply unique_index; [apply Hwf|done..].
  - by apply (Hsole y); [eapply list_elem_of_lookup_2|..].
Qed.

Lemma elem_of_replaced c i d d' x :
  NoDup (ids c) → c !! i = Some d → x ∈ <[i := d']> c →
  x = d' ∨ (x ∈ c ∧ field x "job_id" ≠ field d "job_id").
Proof.
  intros Hnd Hi [k Hk]%list_elem_of_lookup_1.
  apply list_lookup_insert_Some in Hk as [(_ & <- & _)|[Hne Hk]]; [by left|].
  right. split; [by eapply list_elem_of_lookup_2|]. intros Heq.
  apply Hne. symmetry. by eapply unique_index.
Qed.

(** The first taker of the only eligible job wins it in its idle phase. *)
Lemma winner_step p c i d :
  wf c → c !! i = Some d → idle_net (c_env p) = Up →
  field d "tag" ∈ c_tags p → field d "status" = IDLE →
  (∀ x, x ∈ c → field x "job_id" ≠ field d "job_id" → ¬ eligible p x) →
  advance p AtIdle c
  = Some (Returned (Ok (Some (job_of (updated (lease (c_worker p) (idle_now (c_env p))) d)))),
          <[i := updated (lease (c_worker p) (idle_now (c_env p))) d]> c).
Proof.
  intros Hwf Hi Hup Ht Hs Hsole. unfold advance.
  rewrite _try_acquire_idle_job_eq.
  rewrite _find_one_and_update_run, Hup; [|done|apply assignable_lease].
  rewrite (sole_match _ c i d); try done.
  - by apply matches_idle.
  - intros x Hx Hne [Hxt Hxs]%matches_idle. apply (Hsole x Hx Hne).
    split; [done|by left].
Qed.

(** Once the job is taken, the other caller finds nothing in either phase
    and the collection stays as the winner left it. *)
Lemma loser_step q c i d w t s s' c' :
  wf c → c !! i = Some d →
  idle_net (c_env q) = Up → stale_net (c_env q) = Up →
  stale_now_q (c_env q) - HEARTBEAT_TIMEOUT ≤ t →
  (∀ x, x ∈ c → field x "job_id" ≠ field d "job_id" → ¬ eligible q x) →
  advance q s (<[i := updated (lease w t) d]> c) = Some (s', c') →
  c' = <[i := updated (lease w t) d]> c ∧
  (s = AtIdle ∧ s' = AtStale ∨ s = AtStale ∧ s' = Returned (Ok None)).
Proof.
  intros Hwf Hi Hup1 Hup2 Ht Hsole Hadv.
  pose proof (wf_insert _ _ _ _ Hwf Hi (assignable_lease w t)) as Hwf1.
  assert (∀ x, x ∈ <[i := updated (lease w t) d]> c →
               x = updated (lease w t) d ∨ ¬ eligible q x) as Helem.
  { intros x Hx. destruct (elem_of_replaced _ _ _ _ _ (proj1 Hwf) Hi Hx) as [->|[Hx' Hne]];
      [by left|right; by apply Hsole]. }
  assert (field (updated (lease w t) d) "status" = LOCKED) as Hs.
  { unfold field. by rewrite (updated_set _ _ "status" LOCKED). }
  assert (updated (lease w t) d !! "worker_heartbeat" = Some (VDate t)) as Hh.
  { by apply updated_set. }
  destruct s as [| |o]; [| |done]; injection Hadv as <- <-.
  - rewrite _try_acquire_idle_job_eq.
    rewrite _find_one_and_update_run, Hup1; [|done|apply assignable_lease].
    assert (Server.first_match [("tag", In (c_tags q)); ("status", Eq IDLE)]
              (<[i := updated (lease w t) d]> c) = None) as ->.
    { apply first_match_None. intros x Hx [Hxt Hxs]%matches_idle.
      destruct (Helem x Hx) as [->|Hn].
      - rewrite Hs in Hxs. discriminate.
      - apply Hn. split; [done|by left]. }
    simpl. auto.
  - rewrite _try_reacquire_locked_job_eq.
    rewrite _find_one_and_update_run, Hup2; [|done|apply assignable_lease].
    assert (Server.first_match
              [("tag", In (c_tags q)); ("status", Eq LOCKED);
               ("worker_heartbeat", LtDate (stale_now_q (c_env q) - HEARTBEAT_TIMEOUT))]
              (<[i := updated (lease w t) d]> c) = None) as ->.
    { apply first_match_None. intros x Hx (Hxt & Hxs & h & Hxh & Hlt)%matches_stale.
      destruct (Helem x Hx) as [->|Hn].
      - rewrite Hh in Hxh. injection Hxh as <-. lia.
      - apply Hn. split; [done|]. right. eauto. }
    simpl. auto.
Qed.

Section OneJob.

Variables (a b : caller) (c0 : collection) (i : nat) (d : doc).

Hypothesis Hwf : wf c0.
Hypothesis Hi : c0 !! i = Some d.
Hypothesis Hidle : field d "status" = IDLE.
Hypothesis Htag_a : field d "tag" ∈ c_tags a.
Hypothesis Htag_b : field d "tag" ∈ c_tags b.
Hypothesis Hsole : ∀ x, x ∈ c0 → field x "job_id" ≠ field d "job_id" →
  ¬ eligible a x ∧ ¬ eligible b x.
Hypothesis Hup_a : idle_net (c_env a) = Up ∧ stale_net (c_env a) = Up.
Hypothesis Hup_b : idle_net (c_env b) = Up ∧ stale_net (c_env b) = Up.
Hypothesis Htime_a : stale_now_q (c_env b) - HEARTBEAT_TIMEOUT ≤ idle_now (c_env a).
Hypothesis Htime_b : stale_now_q (c_env a) - HEARTBEAT_TIMEOUT ≤ idle_now (c_env b).

(** Every configuration the race reaches: nobody has moved, or one caller
    has the job and the other has found nothing so far. *)
Lemma one_job_reach :
  ∀ cfg, rtc (race a b) (c0, AtIdle, AtIdle) cfg →
  cfg = (c0, AtIdle, AtIdle)
  ∨ (∃ sb, cfg = (<[i := taken_by a d]> c0,
                  Returned (Ok (Some (job_of (taken_by a d)))), sb)
           ∧ (sb = AtIdle ∨ sb = AtStale ∨ sb = Returned (Ok None)))
  ∨ (∃ sa, cfg = (<[i := taken_by b d]> c0, sa,
                  Returned (Ok (Some (job_of (taken_by b d)))))
           ∧ (sa = AtIdle ∨ sa = AtStale ∨ sa = Returned (Ok None))).
Proof.
  unfold taken_by. apply rtc_ind_r; [by left|]. intros y z Hyz Hstep IH.
  destruct IH as [->|[(sb & -> & Hsb)|(sa & -> & Hsa)]].
  - inversion Hstep as [c sa sb sa' c' Hadv|c sa sb sb' c' Hadv]; subst.
    + rewrite (winner_step a c0 i d) in Hadv; try done; [|apply Hup_a|].
      * injection Hadv as <- <-. right. left. eauto.
      * intros x Hx Hne. by apply Hsole.
    + rewrite (winner_step b c0 i d) in Hadv; try done; [|apply Hup_b|].
      * injection Hadv as <- <-. right. right. eauto.
      * intros x Hx Hne. by apply Hsole.
  - inversion Hstep as [c sa sb0 sa' c' Hadv|c sa sb0 sb' c' Hadv]; subst; [done|].
    apply loser_step in Hadv as [-> Hs]; try done; try apply Hup_b.
    + right. left. exists sb'. split; [done|]. destruct Hs as [[_ ->]|[_ ->]]; auto.
    + intros x Hx Hne. by apply Hsole.
  - inversion Hstep as [c sa0 sb sa' c' Hadv|c sa0 sb sb' c' Hadv]; subst; [|done].
    apply loser_step in Hadv as [-> Hs]; try done; try apply Hup_a.
    + right. right. exists sa'. split; [done|]. destruct Hs as [[_ ->]|[_ ->]]; auto.
    + intros x Hx Hne. by apply Hsole.
Qed.

(** The race can be run to the end either way round. *)
Lemma one_job_runs :
  rtc (race a b) (c0, AtIdle, AtIdle)
      (<[i := taken_by a d]> c0,
       Returned (Ok (Some (job_of (taken_by a d)))), Returned (Ok None))
  ∧ rtc (race a b) (c0, AtIdle, AtIdle)
        (<[i := taken_by b d]> c0,
         Returned (Ok None), Returned (Ok (Some (job_of (taken_by b d))))).
Proof.
  unfold taken_by.
  assert (∀ q w t, idle_net (c_env q) = Up → stale_net (c_env q) = Up →
            stale_now_q (c_env q) - HEARTBEAT_TIMEOUT ≤ t →
            (∀ x, x ∈ c0 → field x "job_id" ≠ field d "job_id" → ¬ eligible q x) →
            advance q AtIdle (<[i := updated (lease w t) d]> c0)
            = Some (AtStale, <[i := updated (lease w t) d]> c0) ∧
            advance q AtStale (<[i := updated (lease w t) d]> c0)
            = Some (Returned (Ok None), <[i := updated (lease w t) d]> c0)) as Hlose.
  { intros q w t H1 H2 Ht Hs. split.
    - destruct (advance q AtIdle (<[i := updated (lease w t) d]> c0))
        as [[s' c']|] eqn:E; [|done].
      apply loser_step in E as [-> [[_ ->]|[? _]]]; done.
    - destruct (advance q AtStale (<[i := updated (lease w t) d]> c0))
        as [[s' c']|] eqn:E; [|done].
      apply loser_step in E as [-> [[? _]|[_ ->]]]; done. }
  split.
  - destruct (Hlose b (c_worker a) (idle_now (c_env a))) as [H1 H2];
      [apply Hup_b|apply Hup_b|done|intros x Hx Hne; by apply Hsole|].
    eapply rtc_l; [apply race_left, winner_step; try done;
                   [apply Hup_a|intros x Hx Hne; by apply Hsole]|].
    eapply rtc_l; [apply race_right, H1|].
    eapply rtc_l; [apply race_right, H2|]. apply rtc_refl.
  - destruct (Hlose a (c_worker b) (idle_now (c_env b))) as [H1 H2];
      [apply Hup_a|apply Hup_a|done|intros x Hx Hne; by apply Hsole|].
    eapply rtc_l; [apply race_right, winner_step; try done;
                   [apply Hup_b|intros x Hx Hne; by apply Hsole]|].
    eapply rtc_l; [apply race_left, H1|].
    eapply rtc_l; [apply race_left, H2|]. apply rtc_refl.
Qed.

End OneJob.



(** * C10: concurrent acquisitions *)

(** C10, amended.  Let two calls of [acquire_job] run against one
    collection, their driver calls interleaved in any way, each with a
    staleness cutoff that is not past the heartbeats the other writes.
    Whatever the connection does, they never both return the same job, in
    either phase.  And when both connections are sound and one [IDLE] record
    with a tag that both request is the only record eligible for either
    call, then however the driver calls interleave exactly one call returns
    that job and the other returns [None]; either call may be the one. *)
Theorem concurrent_claims a b c0 :
  wf c0 → timely a b → timely b a →
  (∀ c ja jb,
     rtc (race a b) (c0, AtIdle, AtIdle)
         (c, Returned (Ok (Some ja)), Returned (Ok (Some jb))) →
     job_id ja ≠ job_id jb) ∧
  (∀ i d,
     c0 !! i = Some d → field d "status" = IDLE →
     field d "tag" ∈ c_tags a → field d "tag" ∈ c_tags b →
     (∀ x, x ∈ c0 → field x "job_id" ≠ field d "job_id" →
           ¬ eligible a x ∧ ¬ eligible b x) →
     idle_net (c_env a) = Up ∧ stale_net (c_env a) = Up →
     idle_net (c_env b) = Up ∧ stale_net (c_env b) = Up →
     (∀ c oa ob,
        rtc (race a b) (c0, AtIdle, AtIdle) (c, Returned oa, Returned ob) →
        (oa = Ok (Some (job_of (taken_by a d))) ∧ ob = Ok None
         ∧ c = <[i := taken_by a d]> c0)
        ∨ (oa = Ok None ∧ ob = Ok (Some (job_of (taken_by b d)))
           ∧ c = <[i := taken_by b d]> c0)) ∧
     rtc (race a b) (c0, AtIdle, AtIdle)
         (<[i := taken_by a d]> c0,
          Returned (Ok (Some (job_of (taken_by a d)))), Returned (Ok None)) ∧
     rtc (race a b) (c0, AtIdle, AtIdle)
         (<[i := taken_by b d]> c0,
          Returned (Ok None), Returned (Ok (Some (job_of (taken_by b d)))))).
Proof.
  intros Hwf Hab Hba. split.
  - intros c ja jb Hrun.
    assert (exclusive a b (c, Returned (Ok (Some ja)), Returned (Ok (Some jb))))
      as (_ & _ & _ & Hne).
    { eapply (rtc_ind_r (exclusive a b) (c0, AtIdle, AtIdle));
        [|intros y z _ Hstep Hy|done].
      - split_and!; [done|by intros ?|by intros ?|by intros ? ? ?].
      - by eapply race_exclusive. }
    by apply Hne.
  - intros i d Hi Hidle Hta Htb Hsole Hua Hub.
    destruct Hab as [Hca _], Hba as [Hcb _]. split.
    + intros c oa ob Hrun.
      destruct (one_job_reach a b c0 i d Hwf Hi Hidle Hta Htb Hsole Hua Hub Hca Hcb
                  _ Hrun)
        as [[=]|[(sb & [= -> -> <-] & Hsb)|(sa & [= -> <- ->] & Hsa)]].
      * left. destruct Hsb as [[=]|[[=]|[= ->]]]. done.
      * right. destruct Hsa as [[=]|[[=]|[= ->]]]. done.
    + apply (one_job_runs a b c0 i d Hwf Hi Hidle Hta Htb Hsole Hua Hub Hca Hcb).
Qed.

Lemma concurrent_claims_witness :
  (∀ c ja jb,
     rtc (race worker1 worker2) (two_idle, AtIdle, AtIdle)
         (c, Returned (Ok (Some ja)), Returned (Ok (Some jb))) →
     job_id ja ≠ job_id jb) ∧
  rtc (race worker1 worker2) (one_idle, AtIdle, AtIdle)
      (<[0%nat := taken_by worker1 (fresh_doc J1 build VNone)]> one_idle,
       Returned (Ok (Some (job_of (taken_by worker1 (fresh_doc J1 build VNone))))),
       Returned (Ok None)).
Proof.
  split.
  - apply (concurrent_claims worker1 worker2 two_idle).
    + exact wf_two_idle.
    + split; vm_compute; discriminate.
    + split; vm_compute; discriminate.
  - refine (proj1 (proj2 (proj2 (concurrent_claims worker1 worker2 one_idle
                                   wf_one_idle _ _)
                            0%nat (fresh_doc J1 build VNone) _ _ _ _ _ _ _))).
    + split; vm_compute; discriminate.
    + split; vm_compute; discriminate.
    + reflexivity.
    + reflexivity.
    + by left.
    + by left.
    + intros x ->%list_elem_of_singleton Hne. done.
    + split; reflexivity.
    + split; reflexivity.
Defined.

(** C10 as stated fails: the cutoff is taken from the clock of the caller.
    A worker whose clock reads more than ten minutes past the heartbeat that
    the first worker has just written finds that lease stale and takes the
    same job. *)
Lemma skewed_clocks_both_claim :
  stored one_idle J1 = Some (fresh_doc J1 build VNone) ∧
  fresh_doc J1 build VNone !! "status" = Some IDLE ∧
  ∃ c ja jb,
    rtc (race worker1 late_worker) (one_idle, AtIdle, AtIdle)
        (c, Returned (Ok (Some ja)), Returned (Ok (Some jb))) ∧
    job_id ja = J1 ∧ job_id jb = J1.
Proof.
  split; [vm_compute; reflexivity|]. split; [vm_compute; reflexivity|].
  exists [updated (lease (VStr "w2") 700000)
            (updated (lease (VStr "w1") 1000) (fresh_doc J1 build VNone))],
    (job_of (updated (lease (VStr "w1") 1000) (fresh_doc J1 build VNone))),
    (job_of (updated (lease (VStr "w2") 700000)
               (updated (lease (VStr "w1") 1000) (fresh_doc J1 build VNone)))).
  split; [|split; vm_compute; reflexivity].
  eapply rtc_l.
  { apply (race_left worker1 late_worker one_idle AtIdle AtIdle
             (Returned (Ok (Some (job_of (updated (lease (VStr "w1") 1000)
                                            (fresh_doc J1 build VNone))))))
             one_locked).
    vm_compute; reflexivity. }
  eapply rtc_l.
  { apply (race_right worker1 late_worker one_locked _ AtIdle AtStale one_locked).
    vm_compute; reflexivity. }
  eapply rtc_l; [|apply rtc_refl].
  apply race_right. vm_compute; reflexivity.
Qed.

(** ** The theorems without premises, at concrete inputs *)

Lemma history_invariant_witness :
  NoDup (ids (run busy_history []).2) ∧
  (fresh_doc J2 build (VInt 7) ∈ (run busy_history []).2 →
   is_Some (fresh_doc J2 build (VInt 7) !! "job_id") ∧
   ∃ n, fresh_doc J2 build (VInt 7) !! "version" = Some (VInt n) ∧ 0 ≤ n).
Proof.
  split.
  - apply (history_invariant busy_history).
  - apply (history_invariant busy_history).
Defined.


(** The history of the witness leaves the one record of [J2]. *)
Example busy_history_end : (run busy_history []).2 = [fresh_doc J2 build (VInt 7)].
Proof. vm_compute; reflexivity. Qed.
